(** * Pancake flipping sort: UCS and A* search over prefix reversals

    Shallow embedding of [main.py] (classes [UcsNode], [AStarNode], [Ucs],
    [Astar], the validator [FlippingSort.is_stack_valid] and
    [FlippingSort.print_results]) and the properties of the two searches.

    Python integers are [Z]; Python lists are [list]; a method that can
    raise returns a [result]; the [while True] loops take a fuel that
    counts their iterations. *)

From Stdlib Require Import ZArith Lia.
From Stdlib Require Strings.Ascii Strings.String Numbers.DecimalString.
From stdpp Require Import base decidable list sorting.

Local Open Scope Z_scope.

(** ** Exceptions *)

(** The built-in exceptions the search code can raise: [expanded[0]] on an
    empty list, [list.remove] of an absent element, and an attribute access
    on the integer [0] that [get_node_by_stack] returns when it finds
    nothing.  The source defines no exception class of its own. *)
Inductive exn : Type :=
  | IndexError
  | ValueError
  | AttributeError.

Inductive result (A : Type) : Type :=
  | Ok (a : A)
  | Raise (e : exn).

Arguments Ok {A} a.
Arguments Raise {A} e.

#[export] Instance result_bind : MBind result := fun A B k r =>
  match r with
  | Ok a => k a
  | Raise e => Raise e
  end.

(** ** Lists the Python way *)

(** The bound of a slice [s[:n]] or [s[n:]]: a negative [n] counts from the
    end, and both ends are clamped to the list. *)
Definition slice_bound (len : nat) (n : Z) : nat :=
  if n <? 0 then Z.to_nat (Z.max 0 (Z.of_nat len + n)) else Z.to_nat n.

(** [range(a, b)]: [a], [a + 1], ... up to [b - 1]; empty when [b <= a]. *)
Definition range (a b : Z) : list Z := seqZ a (b - a).

(** [sorted(l)] on integers. *)
Definition sorted (l : list Z) : list Z := merge_sort Z.le l.

(** [l.sort(key=...)]: a stable sort; the stable insertion sort yields the
    list every stable sort yields. *)
Section StableSort.
Context {A : Type} (key : A -> Z).

Fixpoint insert_by (x : A) (l : list A) : list A :=
  match l with
  | [] => [x]
  | y :: l' => if key x <=? key y then x :: y :: l' else y :: insert_by x l'
  end.

Fixpoint sort_by (l : list A) : list A :=
  match l with
  | [] => []
  | x :: l' => insert_by x (sort_by l')
  end.
End StableSort.

(** ** Nodes *)

(** What [UcsNode] and its subclass [AStarNode] have in common. *)
Class Node (N : Type) : Type := {
  stack : N -> list Z;
  backwards_cost : N -> Z;
  path : N -> list (list Z)
}.

Record UcsNode : Type := mkUcsNode {
  ucs_stack : list Z;
  ucs_backwards_cost : Z;
  ucs_path : list (list Z)
}.

#[export] Instance UcsNode_Node : Node UcsNode := {
  stack := ucs_stack;
  backwards_cost := ucs_backwards_cost;
  path := ucs_path
}.

Record AStarNode : Type := mkAStarNode {
  base : UcsNode;
  heuristic_cost : Z;
  total_cost : Z
}.

#[export] Instance AStarNode_Node : Node AStarNode := {
  stack n := ucs_stack (base n);
  backwards_cost n := ucs_backwards_cost (base n);
  path n := ucs_path (base n)
}.

(** [AStarNode.__init__]. *)
Definition new_AStarNode (stack : list Z) (backwards_cost : Z)
    (path : list (list Z)) (heuristic_value : Z) : AStarNode :=
  {| base := mkUcsNode stack backwards_cost path;
     heuristic_cost := heuristic_value;
     total_cost := heuristic_value + backwards_cost |}.

Section NodeLists.
Context {N : Type} `{Node N}.

(** [UcsNode.__eq__]: nodes are equal when their stacks are. *)
Definition node_eq (self other : N) : bool :=
  bool_decide (stack self = stack other).

(** [node in nodes]. *)
Definition node_in (node : N) (nodes : list N) : bool :=
  existsb (fun e => node_eq e node) nodes.

(** [nodes.remove(node)]: drops the first element equal to [node]. *)
Fixpoint list_remove (node : N) (nodes : list N) : result (list N) :=
  match nodes with
  | [] => Raise ValueError
  | e :: rest =>
      if node_eq e node then Ok rest
      else rest' ← list_remove node rest; Ok (e :: rest')
  end.
End NodeLists.

(** ** The search object *)

(** The attributes [Ucs.__init__] sets; [Astar] inherits them. *)
Record Search (N : Type) : Type := mkSearch {
  root : N;
  expanded : list N;
  traversed : list N;
  goal_stack : list Z;
  nodes_expanded : Z
}.

Arguments mkSearch {N}.
Arguments root {N}.
Arguments expanded {N}.
Arguments traversed {N}.
Arguments goal_stack {N}.
Arguments nodes_expanded {N}.

Definition set_expanded {N} (self : Search N) (e : list N) : Search N :=
  mkSearch (root self) e (traversed self) (goal_stack self)
    (nodes_expanded self).

Definition set_traversed {N} (self : Search N) (t : list N) : Search N :=
  mkSearch (root self) (expanded self) t (goal_stack self)
    (nodes_expanded self).

Definition set_nodes_expanded {N} (self : Search N) (c : Z) : Search N :=
  mkSearch (root self) (expanded self) (traversed self) (goal_stack self) c.

Definition set_root {N} (self : Search N) (r : N) : Search N :=
  mkSearch r (expanded self) (traversed self) (goal_stack self)
    (nodes_expanded self).

(** [Ucs.flip]: [stack[:n][::-1] + stack[n:]]. *)
Definition flip (stack : list Z) (n : Z) : list Z :=
  reverse (take (slice_bound (length stack) n) stack)
  ++ drop (slice_bound (length stack) n) stack.

(** [Ucs.get_node_by_stack]; [None] stands for the [0] it returns when no
    node has the stack. *)
Fixpoint get_node_by_stack {N} `{Node N} (nodes : list N) (s : list Z)
    : option N :=
  match nodes with
  | [] => None
  | node :: rest =>
      if bool_decide (stack node = s) then Some node
      else get_node_by_stack rest s
  end.

(** What one pass of [while True] ends with. *)
Inductive step_end (N : Type) : Type :=
  | Return (node : N) (self : Search N)
  | Continue (self : Search N).

Arguments Return {N} node self.
Arguments Continue {N} self.

Module Ucs.

Definition t : Type := Search UcsNode.

Definition init (starting_stack : list Z) : t :=
  {| root := mkUcsNode starting_stack 0 [starting_stack];
     expanded := [];
     traversed := [];
     goal_stack := sorted starting_stack;
     nodes_expanded := 1 |}.

Definition get_lowest_cost_node (self : t) : result (UcsNode * t) :=
  let self := set_expanded self (sort_by backwards_cost (expanded self)) in
  match expanded self with
  | [] => Raise IndexError
  | node :: _ => Ok (node, self)
  end.

(** The body of [for i in range(2, len(current_node.stack) + 1)]. *)
Definition expand (current_node : UcsNode) (self : t) (i : Z) : result t :=
  let self := set_nodes_expanded self (nodes_expanded self + 1) in
  let stack_ := flip (stack current_node) i in
  let path_ := path current_node ++ [stack_] in
  let new_node :=
    mkUcsNode stack_ (backwards_cost current_node + 1) path_ in
  if negb (node_in new_node (expanded self))
     && negb (node_in new_node (traversed self))
  then Ok (set_expanded self (expanded self ++ [new_node]))
  else if node_in new_node (expanded self) then
    match get_node_by_stack (expanded self) (stack new_node) with
    | None => Raise AttributeError
    | Some old_node =>
        if backwards_cost new_node <? backwards_cost old_node then
          e ← list_remove old_node (expanded self);
          Ok (set_expanded self (e ++ [new_node]))
        else Ok self
    end
  else Ok self.

Fixpoint expand_all (current_node : UcsNode) (self : t) (ks : list Z)
    : result t :=
  match ks with
  | [] => Ok self
  | i :: ks' =>
      self' ← expand current_node self i;
      expand_all current_node self' ks'
  end.

(** One pass of the [while True] loop. *)
Definition iteration (self : t) : result (step_end UcsNode) :=
  '(current_node, self) ← get_lowest_cost_node self;
  e ← list_remove current_node (expanded self);
  let self := set_expanded self e in
  let self := set_traversed self (traversed self ++ [current_node]) in
  if bool_decide (stack current_node = goal_stack self)
  then Ok (Return current_node self)
  else
    self' ← expand_all current_node self
               (range 2 (Z.of_nat (length (stack current_node)) + 1));
    Ok (Continue self').

Fixpoint search_loop (fuel : nat) (self : t)
    : option (result (UcsNode * t)) :=
  match fuel with
  | O => None
  | S fuel' =>
      match iteration self with
      | Raise e => Some (Raise e)
      | Ok (Return node self') => Some (Ok (node, self'))
      | Ok (Continue self') => search_loop fuel' self'
      end
  end.

Definition start_search (fuel : nat) (self : t)
    : option (result (UcsNode * t)) :=
  search_loop fuel (set_expanded self (expanded self ++ [root self])).

End Ucs.

Module Astar.

Definition t : Type := Search AStarNode.

(** The [while] loop of [calculate_heuristic_value], [n] passes at most. *)
Fixpoint heuristic_loop (n : nat) (stack : list Z) (i : Z)
    (heuristic_value : Z) : Z :=
  match n with
  | O => heuristic_value
  | S n' =>
      if i <? Z.of_nat (length stack) - 1 then
        let current_pancake := nth (Z.to_nat i) stack 0 in
        let current_plus_one := current_pancake - 1 in
        let current_minus_one := current_pancake + 1 in
        let next := nth (Z.to_nat (i + 1)) stack 0 in
        let heuristic_value :=
          if negb (next =? current_minus_one)
             && negb (next =? current_plus_one)
          then heuristic_value + 1 else heuristic_value in
        heuristic_loop n' stack (i + 1) heuristic_value
      else heuristic_value
  end.

(** [i] starts at [0] and the loop stops at [len(stack) - 1], so
    [len(stack)] passes are enough. *)
Definition calculate_heuristic_value (stack : list Z) : Z :=
  heuristic_loop (length stack) stack 0 0.

Definition init (starting_stack : list Z) : t :=
  {| root := new_AStarNode starting_stack 0 [starting_stack]
               (calculate_heuristic_value starting_stack);
     expanded := [];
     traversed := [];
     goal_stack := sorted starting_stack;
     nodes_expanded := 1 |}.

Definition get_lowest_cost_node (self : t) : result (AStarNode * t) :=
  let self := set_expanded self (sort_by total_cost (expanded self)) in
  match expanded self with
  | [] => Raise IndexError
  | node :: _ => Ok (node, self)
  end.

Definition expand (current_node : AStarNode) (self : t) (i : Z) : result t :=
  let self := set_nodes_expanded self (nodes_expanded self + 1) in
  let stack_ := flip (stack current_node) i in
  let path_ := path current_node ++ [stack_] in
  let heuristic_value := calculate_heuristic_value stack_ in
  let new_node :=
    new_AStarNode stack_ (backwards_cost current_node + 1) path_
      heuristic_value in
  if negb (node_in new_node (expanded self))
     && negb (node_in new_node (traversed self))
  then Ok (set_expanded self (expanded self ++ [new_node]))
  else if node_in new_node (expanded self) then
    match get_node_by_stack (expanded self) (stack new_node) with
    | None => Raise AttributeError
    | Some old_node =>
        if total_cost new_node <? total_cost old_node then
          e ← list_remove old_node (expanded self);
          Ok (set_expanded self (e ++ [new_node]))
        else Ok self
    end
  else Ok self.

Fixpoint expand_all (current_node : AStarNode) (self : t) (ks : list Z)
    : result t :=
  match ks with
  | [] => Ok self
  | i :: ks' =>
      self' ← expand current_node self i;
      expand_all current_node self' ks'
  end.

Definition iteration (self : t) : result (step_end AStarNode) :=
  '(current_node, self) ← get_lowest_cost_node self;
  e ← list_remove current_node (expanded self);
  let self := set_expanded self e in
  let self := set_traversed self (traversed self ++ [current_node]) in
  if bool_decide (stack current_node = goal_stack self)
  then Ok (Return current_node self)
  else
    self' ← expand_all current_node self
               (range 2 (Z.of_nat (length (stack current_node)) + 1));
    Ok (Continue self').

Fixpoint search_loop (fuel : nat) (self : t)
    : option (result (AStarNode * t)) :=
  match fuel with
  | O => None
  | S fuel' =>
      match iteration self with
      | Raise e => Some (Raise e)
      | Ok (Return node self') => Some (Ok (node, self'))
      | Ok (Continue self') => search_loop fuel' self'
      end
  end.

(** The first statement stores the heuristic value of the root again; its
    [total_cost], computed in [__init__], is left as it is. *)
Definition start_search (fuel : nat) (self : t)
    : option (result (AStarNode * t)) :=
  let r := root self in
  let self :=
    set_root self
      (mkAStarNode (base r) (calculate_heuristic_value (stack r))
         (total_cost r)) in
  search_loop fuel (set_expanded self (expanded self ++ [root self])).

End Astar.

(** ** The validator *)

(** [FlippingSort.is_stack_valid]; the messages it prints are left out.
    [set(starting_stack)] is only asked for its size. *)
Definition is_stack_valid (starting_stack : list Z) : bool :=
  let starting_stack_set := remove_dups starting_stack in
  if negb (length starting_stack =? length starting_stack_set)%nat then false
  else
    forallb (fun i => bool_decide (i ∈ starting_stack))
      (range 1 (Z.of_nat (length starting_stack) + 1)).

(** ** The two runs *)

Definition run_ucs (fuel : nat) (P : list Z)
    : option (result (UcsNode * Ucs.t)) :=
  Ucs.start_search fuel (Ucs.init P).

Definition run_astar (fuel : nat) (P : list Z)
    : option (result (AStarNode * Astar.t)) :=
  Astar.start_search fuel (Astar.init P).

(** ** The words of the properties *)

(** [P] is a permutation of [1..N], [N] its length. *)
Definition is_permutation (P : list Z) : Prop :=
  P ≡ₚ range 1 (Z.of_nat (length P) + 1).

(** One flip with some [k] in [[2, N]]. *)
Definition one_flip (s t : list Z) : Prop :=
  exists k, 2 <= k <= Z.of_nat (length s) /\ t = flip s k.

(** [t] is [c] flips away from [s]. *)
Inductive reach (s : list Z) : nat -> list Z -> Prop :=
  | reach_here : reach s 0 s
  | reach_flip c t k :
      reach s c t -> 2 <= k <= Z.of_nat (length t) ->
      reach s (S c) (flip t k).

(** Every state of a path but the first is one flip away from the one
    before it. *)
Definition flips_only (p : list (list Z)) : Prop :=
  forall (i : nat) s t, p !! i = Some s -> p !! S i = Some t -> one_flip s t.

(** The two values differ by something else than one. *)
Definition is_gap (a b : Z) : bool := negb (Z.abs (a - b) =? 1).

(** The number of [i] below [n] with [s[i]] and [s[i+1]] not next to each
    other. *)
Definition count_gaps (s : list Z) (n : nat) : Z :=
  Z.of_nat (length (List.filter
    (fun i => is_gap (nth i s 0) (nth (S i) s 0)) (seq 0 n))).

(** ** What the two [start_search] methods share *)

(** The two methods differ in the key they sort and compare by and in the
    node they build for a flipped stack; here both are parameters. *)
Section Skeleton.
Context {N : Type} `{Node N}.
Variable key : N -> Z.
Variable child : N -> list Z -> N.

Definition lowest (self : Search N) : result (N * Search N) :=
  let self := set_expanded self (sort_by key (expanded self)) in
  match expanded self with
  | [] => Raise IndexError
  | node :: _ => Ok (node, self)
  end.

Definition merge (current_node : N) (self : Search N) (i : Z)
    : result (Search N) :=
  let self := set_nodes_expanded self (nodes_expanded self + 1) in
  let new_node := child current_node (flip (stack current_node) i) in
  if negb (node_in new_node (expanded self))
     && negb (node_in new_node (traversed self))
  then Ok (set_expanded self (expanded self ++ [new_node]))
  else if node_in new_node (expanded self) then
    match get_node_by_stack (expanded self) (stack new_node) with
    | None => Raise AttributeError
    | Some old_node =>
        if key new_node <? key old_node then
          e ← list_remove old_node (expanded self);
          Ok (set_expanded self (e ++ [new_node]))
        else Ok self
    end
  else Ok self.

Fixpoint merge_all (current_node : N) (self : Search N) (ks : list Z)
    : result (Search N) :=
  match ks with
  | [] => Ok self
  | i :: ks' =>
      self' ← merge current_node self i;
      merge_all current_node self' ks'
  end.

(** The first three statements of the loop body. *)
Definition close (self : Search N) : result (N * Search N) :=
  '(current_node, self) ← lowest self;
  e ← list_remove current_node (expanded self);
  let self := set_expanded self e in
  Ok (current_node,
      set_traversed self (traversed self ++ [current_node])).

Definition pass (self : Search N) : result (step_end N) :=
  '(current_node, self) ← close self;
  if bool_decide (stack current_node = goal_stack self)
  then Ok (Return current_node self)
  else
    self' ← merge_all current_node self
               (range 2 (Z.of_nat (length (stack current_node)) + 1));
    Ok (Continue self').

Fixpoint loop (fuel : nat) (self : Search N)
    : option (result (N * Search N)) :=
  match fuel with
  | O => None
  | S fuel' =>
      match pass self with
      | Raise e => Some (Raise e)
      | Ok (Return node self') => Some (Ok (node, self'))
      | Ok (Continue self') => loop fuel' self'
      end
  end.

(** Where a run stands: at the head of [while True], inside the [for]
    with the values of [i] still to come, or at [return]. *)
Inductive point : Type :=
  | AtWhile
  | InFor (current_node : N) (ks : list Z)
  | AtReturn (node : N).

(** The states a run that starts in [start] goes through. *)
Inductive visits (start : Search N) : point -> Search N -> Prop :=
  | visits_start : visits start AtWhile start
  | visits_goal self current_node self' :
      visits start AtWhile self ->
      close self = Ok (current_node, self') ->
      stack current_node = goal_stack self' ->
      visits start (AtReturn current_node) self'
  | visits_for self current_node self' :
      visits start AtWhile self ->
      close self = Ok (current_node, self') ->
      stack current_node <> goal_stack self' ->
      visits start
        (InFor current_node
           (range 2 (Z.of_nat (length (stack current_node)) + 1))) self'
  | visits_merge self current_node i ks self' :
      visits start (InFor current_node (i :: ks)) self ->
      merge current_node self i = Ok self' ->
      visits start (InFor current_node ks) self'
  | visits_while self current_node :
      visits start (InFor current_node []) self ->
      visits start AtWhile self.
End Skeleton.

Definition ucs_child (current_node : UcsNode) (s : list Z) : UcsNode :=
  mkUcsNode s (backwards_cost current_node + 1) (path current_node ++ [s]).

Definition astar_child (current_node : AStarNode) (s : list Z) : AStarNode :=
  new_AStarNode s (backwards_cost current_node + 1)
    (path current_node ++ [s]) (Astar.calculate_heuristic_value s).

(** The state [start_search] enters its loop with. *)
Definition ucs_start (P : list Z) : Ucs.t :=
  set_expanded (Ucs.init P) [root (Ucs.init P)].

Definition astar_start (P : list Z) : Astar.t :=
  let r := root (Astar.init P) in
  let r' := mkAStarNode (base r) (Astar.calculate_heuristic_value (stack r))
              (total_cost r) in
  set_expanded (set_root (Astar.init P) r') [r'].

(** * Properties *)

(** ** The skeleton is the code *)

Lemma ucs_expand_merge cur self i :
  Ucs.expand cur self i = merge backwards_cost ucs_child cur self i.
Proof. reflexivity. Qed.

Lemma astar_expand_merge cur self i :
  Astar.expand cur self i = merge total_cost astar_child cur self i.
Proof. reflexivity. Qed.

Lemma ucs_expand_all_merge cur ks : forall self,
  Ucs.expand_all cur self ks = merge_all backwards_cost ucs_child cur self ks.
Proof.
  induction ks as [|i ks IH]; intros self; simpl; [reflexivity|].
  rewrite ucs_expand_merge.
  destruct (merge _ _ _ _ _); simpl; [apply IH | reflexivity].
Qed.

Lemma astar_expand_all_merge cur ks : forall self,
  Astar.expand_all cur self ks = merge_all total_cost astar_child cur self ks.
Proof.
  induction ks as [|i ks IH]; intros self; simpl; [reflexivity|].
  rewrite astar_expand_merge.
  destruct (merge _ _ _ _ _); simpl; [apply IH | reflexivity].
Qed.

Lemma ucs_iteration_pass self :
  Ucs.iteration self = pass backwards_cost ucs_child self.
Proof.
  unfold Ucs.iteration, pass, close, Ucs.get_lowest_cost_node, lowest.
  cbv [mbind result_bind set_expanded expanded].
  destruct (sort_by _ _) as [|n l]; [reflexivity|].
  destruct (list_remove n (n :: l)) as [e|e]; [|reflexivity].
  cbv [set_traversed goal_stack traversed].
  destruct (bool_decide _); [reflexivity|].
  rewrite ucs_expand_all_merge. reflexivity.
Qed.

Lemma astar_iteration_pass self :
  Astar.iteration self = pass total_cost astar_child self.
Proof.
  unfold Astar.iteration, pass, close, Astar.get_lowest_cost_node, lowest.
  cbv [mbind result_bind set_expanded expanded].
  destruct (sort_by _ _) as [|n l]; [reflexivity|].
  destruct (list_remove n (n :: l)) as [e|e]; [|reflexivity].
  cbv [set_traversed goal_stack traversed].
  destruct (bool_decide _); [reflexivity|].
  rewrite astar_expand_all_merge. reflexivity.
Qed.

Lemma ucs_search_loop fuel : forall self,
  Ucs.search_loop fuel self = loop backwards_cost ucs_child fuel self.
Proof.
  induction fuel as [|fuel IH]; intros self; simpl; [reflexivity|].
  rewrite ucs_iteration_pass.
  destruct (pass _ _ _) as [[n s|s]|e]; auto.
Qed.

Lemma astar_search_loop fuel : forall self,
  Astar.search_loop fuel self = loop total_cost astar_child fuel self.
Proof.
  induction fuel as [|fuel IH]; intros self; simpl; [reflexivity|].
  rewrite astar_iteration_pass.
  destruct (pass _ _ _) as [[n s|s]|e]; auto.
Qed.

Lemma run_ucs_loop fuel P :
  run_ucs fuel P = loop backwards_cost ucs_child fuel (ucs_start P).
Proof. unfold run_ucs, Ucs.start_search. apply ucs_search_loop. Qed.

Lemma run_astar_loop fuel P :
  run_astar fuel P = loop total_cost astar_child fuel (astar_start P).
Proof. unfold run_astar, Astar.start_search. apply astar_search_loop. Qed.

(** ** Flips *)

Lemma slice_bound_nonneg len n : 0 <= n -> slice_bound len n = Z.to_nat n.
Proof. intros Hn. unfold slice_bound. destruct (Z.ltb_spec n 0); [lia | reflexivity]. Qed.

Lemma flip_nonneg s k :
  0 <= k -> flip s k = reverse (take (Z.to_nat k) s) ++ drop (Z.to_nat k) s.
Proof. intros Hk. unfold flip. rewrite slice_bound_nonneg by assumption. reflexivity. Qed.

Lemma flip_length s k : length (flip s k) = length s.
Proof.
  unfold flip. rewrite length_app, length_reverse, length_take, length_drop. lia.
Qed.

Lemma flip_Permutation s k : flip s k ≡ₚ s.
Proof.
  unfold flip. rewrite reverse_Permutation. rewrite take_drop. reflexivity.
Qed.

Lemma flip_flip s k : 0 <= k <= Z.of_nat (length s) -> flip (flip s k) k = s.
Proof.
  intros Hk. rewrite (flip_nonneg (flip s k)) by lia.
  rewrite (flip_nonneg s) by lia.
  assert (Hn : length (reverse (take (Z.to_nat k) s)) = Z.to_nat k).
  { rewrite length_reverse, length_take. lia. }
  rewrite take_app_length' by (symmetry; exact Hn).
  rewrite drop_app_length' by (symmetry; exact Hn).
  rewrite reverse_involutive. apply take_drop.
Qed.

(** The flip that takes [l1 ++ l2] apart after [l1]. *)
Lemma flip_app l1 l2 :
  flip (l1 ++ l2) (Z.of_nat (length l1)) = reverse l1 ++ l2.
Proof.
  rewrite flip_nonneg by lia. rewrite Nat2Z.id.
  rewrite take_app_length, drop_app_length. reflexivity.
Qed.

Lemma one_flip_sym s t : one_flip s t -> one_flip t s.
Proof.
  intros (k & Hk & ->). exists k. rewrite flip_length. split; [exact Hk|].
  symmetry. apply flip_flip. lia.
Qed.

(** ** The heuristic *)

(** The gaps of a stack, pair by pair from the top. *)
Fixpoint gaps (s : list Z) : Z :=
  match s with
  | a :: (b :: _) as tl => (if is_gap a b then 1 else 0) + gaps tl
  | _ => 0
  end.

Lemma is_gap_test a b :
  negb (b =? a + 1) && negb (b =? a - 1) = is_gap a b.
Proof.
  unfold is_gap.
  destruct (Z.eqb_spec b (a + 1)), (Z.eqb_spec b (a - 1)),
    (Z.eqb_spec (Z.abs (a - b)) 1); simpl; try reflexivity; lia.
Qed.

Lemma is_gap_sym a b : is_gap a b = is_gap b a.
Proof. unfold is_gap. f_equal. f_equal. lia. Qed.

Ltac case_ltb :=
  match goal with
  | |- context [?a <? ?b] => destruct (Z.ltb_spec a b)
  end.

Lemma heuristic_loop_gaps rest : forall pre n acc,
  (length rest <= n)%nat ->
  Astar.heuristic_loop n (pre ++ rest) (Z.of_nat (length pre)) acc
  = acc + gaps rest.
Proof.
  induction rest as [|a rest IH]; intros pre n acc Hn.
  - destruct n; cbn [Astar.heuristic_loop gaps]; [lia|].
    rewrite length_app. case_ltb; simpl in *; lia.
  - destruct n as [|n]; simpl in Hn; [lia|].
    cbn [Astar.heuristic_loop]. rewrite length_app.
    destruct rest as [|b rest].
    + case_ltb; simpl in *; lia.
    + case_ltb; [|simpl in *; lia].
      rewrite Nat2Z.id.
      replace (Z.to_nat (Z.of_nat (length pre) + 1)) with (S (length pre)) by lia.
      rewrite (nth_middle pre (b :: rest) a 0).
      replace (nth (S (length pre)) (pre ++ a :: b :: rest) 0) with b.
      2:{ change (pre ++ a :: b :: rest) with (pre ++ [a] ++ b :: rest).
          rewrite app_assoc.
          replace (S (length pre)) with (length (pre ++ [a]))
            by (rewrite length_app; simpl; lia).
          symmetry. apply nth_middle. }
      rewrite is_gap_test.
      specialize (IH (pre ++ [a]) n).
      rewrite length_app in IH. simpl length in IH.
      replace (Z.of_nat (length pre) + 1) with (Z.of_nat (length pre + 1)) by lia.
      rewrite <- app_assoc in IH. simpl app in IH.
      rewrite IH by (simpl in *; lia).
      cbn [gaps]. destruct (is_gap a b); lia.
Qed.

Lemma calculate_heuristic_value_gaps s :
  Astar.calculate_heuristic_value s = gaps s.
Proof.
  unfold Astar.calculate_heuristic_value.
  apply (heuristic_loop_gaps s [] (length s) 0). lia.
Qed.

Lemma filter_map_swap {A B} (f : B -> bool) (g : A -> B) (l : list A) :
  List.filter f (map g l) = map g (List.filter (fun x => f (g x)) l).
Proof.
  induction l as [|x l IH]; [reflexivity|]. cbn [map List.filter].
  rewrite IH. destruct (f (g x)); reflexivity.
Qed.

Lemma count_gaps_cons a s n :
  count_gaps (a :: s) (S n)
  = (if is_gap a (nth 0 s 0) then 1 else 0) + count_gaps s n.
Proof.
  unfold count_gaps. rewrite <- cons_seq, <- seq_shift. cbn [List.filter].
  rewrite filter_map_swap. cbn [nth].
  destruct (is_gap a (nth 0 s 0)); cbn [length]; rewrite length_map; lia.
Qed.

Lemma gaps_count_gaps s : gaps s = count_gaps s (length s - 1).
Proof.
  induction s as [|a s IH]; [reflexivity|].
  destruct s as [|b s]; [reflexivity|].
  replace (length (a :: b :: s) - 1)%nat with (S (length (b :: s) - 1))
    by (simpl; lia).
  rewrite count_gaps_cons. cbn [nth]. rewrite <- IH. reflexivity.
Qed.

Lemma gaps_nonneg s : 0 <= gaps s.
Proof.
  induction s as [|a [|b s] IH]; simpl; try lia.
  simpl in IH. destruct (is_gap a b); lia.
Qed.

(** The gaps of two stacks put together: theirs and the one in between. *)
Definition gap_between (l1 l2 : list Z) : Z :=
  match last l1, l2 with
  | Some a, b :: _ => if is_gap a b then 1 else 0
  | _, _ => 0
  end.

Lemma gaps_cons2 a b l :
  gaps (a :: b :: l) = (if is_gap a b then 1 else 0) + gaps (b :: l).
Proof. reflexivity. Qed.

Lemma gaps_app l1 l2 : gaps (l1 ++ l2) = gaps l1 + gaps l2 + gap_between l1 l2.
Proof.
  induction l1 as [|a l1 IH]; [unfold gap_between; simpl; lia|].
  destruct l1 as [|b l1].
  - unfold gap_between. simpl. destruct l2 as [|c l2]; simpl; lia.
  - cbn [app] in *. rewrite !gaps_cons2, IH.
    unfold gap_between. rewrite (last_cons_cons a b l1). lia.
Qed.

Lemma gaps_reverse l : gaps (reverse l) = gaps l.
Proof.
  induction l as [|a l IH]; [reflexivity|].
  rewrite reverse_cons, gaps_app, IH.
  unfold gap_between. destruct l as [|b l]; [reflexivity|].
  rewrite last_reverse. cbn [head gaps]. rewrite (is_gap_sym b a).
  simpl. lia.
Qed.

Lemma gap_between_bounds l1 l2 : 0 <= gap_between l1 l2 <= 1.
Proof.
  unfold gap_between. destruct (last l1); [|lia].
  destruct l2; [lia|]. destruct (is_gap _ _); lia.
Qed.

(** A flip moves the heuristic value by one at most. *)
Lemma gaps_flip s k : Z.abs (gaps (flip s k) - gaps s) <= 1.
Proof.
  unfold flip. set (n := slice_bound (length s) k).
  assert (E : gaps s = gaps (take n s ++ drop n s)) by (rewrite take_drop; reflexivity).
  rewrite E, !gaps_app, gaps_reverse.
  pose proof (gap_between_bounds (reverse (take n s)) (drop n s)).
  pose proof (gap_between_bounds (take n s) (drop n s)). lia.
Qed.

(** ** Lists of nodes *)

Section StableSortFacts.
Context {A : Type} (key : A -> Z).

Lemma insert_by_Permutation x l : insert_by key x l ≡ₚ x :: l.
Proof.
  induction l as [|y l IH]; simpl; [reflexivity|].
  destruct (key x <=? key y); [reflexivity|].
  rewrite IH. apply Permutation_swap.
Qed.

Lemma sort_by_Permutation l : sort_by key l ≡ₚ l.
Proof.
  induction l as [|x l IH]; simpl; [reflexivity|].
  rewrite insert_by_Permutation, IH. reflexivity.
Qed.

(** The head of a list is lowest. *)
Definition head_lowest (l : list A) : Prop :=
  match l with
  | [] => True
  | x :: l' => forall y, y ∈ l' -> key x <= key y
  end.

Lemma insert_by_head_lowest x l :
  head_lowest l -> head_lowest (insert_by key x l).
Proof.
  destruct l as [|y l]; simpl; intros Hl.
  - intros z Hz. apply elem_of_nil in Hz. contradiction.
  - destruct (Z.leb_spec (key x) (key y)) as [Hxy|Hxy]; simpl.
    + intros z Hz. apply elem_of_cons in Hz as [->|Hz]; [exact Hxy|].
      specialize (Hl z Hz). lia.
    + intros z Hz. rewrite insert_by_Permutation in Hz.
      apply elem_of_cons in Hz as [->|Hz]; [lia | apply Hl, Hz].
Qed.

Lemma sort_by_head_lowest l : head_lowest (sort_by key l).
Proof.
  induction l as [|x l IH]; simpl; [exact I|].
  apply insert_by_head_lowest, IH.
Qed.

Lemma sort_by_lowest l x l' :
  sort_by key l = x :: l' -> forall y, y ∈ l -> key x <= key y.
Proof.
  intros E y Hy. pose proof (sort_by_head_lowest l) as Hl.
  rewrite <- (sort_by_Permutation l), E in Hy. rewrite E in Hl. simpl in Hl.
  apply elem_of_cons in Hy as [->|Hy]; [lia | apply Hl, Hy].
Qed.

Lemma sort_by_nil l : sort_by key l = [] -> l = [].
Proof.
  intros E. apply Permutation_nil_r. rewrite <- E.
  symmetry. apply sort_by_Permutation.
Qed.
End StableSortFacts.

Section NodeFacts.
Context {N : Type} `{Node N}.
Implicit Types (x y : N) (l : list N) (s : list Z).

Lemma node_in_true x l : node_in x l = true <-> stack x ∈ stack <$> l.
Proof.
  unfold node_in. rewrite existsb_exists, list_elem_of_fmap.
  split.
  - intros (e & He & Heq). exists e. apply list_elem_of_In in He.
    unfold node_eq in Heq. apply bool_decide_eq_true in Heq. auto.
  - intros (e & Heq & He). exists e. split; [apply list_elem_of_In, He|].
    unfold node_eq. apply bool_decide_eq_true. auto.
Qed.

Lemma node_in_false x l : node_in x l = false <-> stack x ∉ stack <$> l.
Proof.
  rewrite <- node_in_true. destruct (node_in x l); split; congruence.
Qed.

Lemma first_with s l :
  s ∈ stack <$> l ->
  exists l1 y l2, l = l1 ++ y :: l2 /\ stack y = s /\ s ∉ stack <$> l1.
Proof.
  induction l as [|e l IH]; intros Hs.
  - apply elem_of_nil in Hs. contradiction.
  - destruct (decide (stack e = s)) as [E|NE].
    + exists [], e, l. repeat split; [exact E|]. apply not_elem_of_nil.
    + rewrite fmap_cons in Hs. apply elem_of_cons in Hs as [Hs|Hs]; [congruence|].
      destruct (IH Hs) as (l1 & y & l2 & -> & Hy & Hl1).
      exists (e :: l1), y, l2. repeat split; [exact Hy|].
      rewrite fmap_cons. intros [?|?]%elem_of_cons; [congruence|contradiction].
Qed.

Lemma get_node_by_stack_first l1 y l2 :
  stack y ∉ stack <$> l1 ->
  get_node_by_stack (l1 ++ y :: l2) (stack y) = Some y.
Proof.
  induction l1 as [|e l1 IH]; intros Hl1; simpl.
  - rewrite bool_decide_eq_true_2; reflexivity.
  - rewrite fmap_cons in Hl1. apply not_elem_of_cons in Hl1 as [NE Hl1].
    rewrite bool_decide_eq_false_2 by congruence. apply IH, Hl1.
Qed.

Lemma list_remove_first x l1 y l2 :
  stack y = stack x -> stack x ∉ stack <$> l1 ->
  list_remove x (l1 ++ y :: l2) = Ok (l1 ++ l2).
Proof.
  intros Hy. induction l1 as [|e l1 IH]; intros Hl1; simpl.
  - unfold node_eq. rewrite bool_decide_eq_true_2; [reflexivity | exact Hy].
  - rewrite fmap_cons in Hl1. apply not_elem_of_cons in Hl1 as [NE Hl1].
    unfold node_eq at 1. rewrite bool_decide_eq_false_2 by congruence.
    rewrite (IH Hl1). reflexivity.
Qed.
End NodeFacts.

(** ** Paths of flips *)

Lemma reach_trans s c t c' u :
  reach s c t -> reach t c' u -> reach s (c + c') u.
Proof.
  intros Hst Htu. induction Htu as [|c' u k Htu IH Hk].
  - rewrite Nat.add_0_r. exact Hst.
  - rewrite Nat.add_succ_r. apply reach_flip; assumption.
Qed.

Lemma reach_one s k :
  2 <= k <= Z.of_nat (length s) -> reach s 1 (flip s k).
Proof. intros Hk. apply reach_flip; [apply reach_here | exact Hk]. Qed.

Lemma reach_Permutation s c t : reach s c t -> s ≡ₚ t.
Proof.
  induction 1 as [|c t k _ IH _]; [reflexivity|].
  rewrite flip_Permutation. exact IH.
Qed.

Lemma reach_gaps s c t : reach s c t -> gaps s <= Z.of_nat c + gaps t.
Proof.
  induction 1 as [|c t k _ IH _]; [lia|].
  pose proof (gaps_flip t k). lia.
Qed.

(** Two neighbours change places in three flips. *)
Lemma reach_swap x y l1 l2 :
  reach (l1 ++ y :: x :: l2) 3 (l1 ++ x :: y :: l2).
Proof.
  set (k := Z.of_nat (length l1) + 2).
  assert (Hk : k = Z.of_nat (length (l1 ++ [y; x]))).
  { rewrite length_app. simpl. lia. }
  assert (E1 : flip (l1 ++ y :: x :: l2) k = x :: y :: reverse l1 ++ l2).
  { change (l1 ++ y :: x :: l2) with (l1 ++ [y; x] ++ l2).
    rewrite app_assoc, Hk, flip_app, reverse_app. reflexivity. }
  assert (E2 : flip (x :: y :: reverse l1 ++ l2) 2 = y :: x :: reverse l1 ++ l2).
  { apply (flip_app [x; y] (reverse l1 ++ l2)). }
  assert (Hk' : k = Z.of_nat (length ([y; x] ++ reverse l1))).
  { rewrite length_app, length_reverse. simpl. lia. }
  assert (E3 : flip (y :: x :: reverse l1 ++ l2) k = l1 ++ x :: y :: l2).
  { change (y :: x :: reverse l1 ++ l2) with ([y; x] ++ reverse l1 ++ l2).
    rewrite app_assoc, Hk', flip_app, reverse_app, reverse_involutive.
    rewrite <- app_assoc. reflexivity. }
  rewrite <- E3, <- E2, <- E1.
  repeat apply reach_flip; try apply reach_here;
    rewrite ?flip_length, ?length_app; simpl; lia.
Qed.

(** Every arrangement of a stack is some flips away from it. *)
Lemma reach_any s t : s ≡ₚ t -> exists c, reach s c t.
Proof.
  intros Hst. apply Permutation_Permutation_transp in Hst.
  induction Hst as [l|x y l1 l2|l l' l'' _ [c Hc] _ [c' Hc']].
  - exists 0%nat. apply reach_here.
  - exists 3%nat. apply reach_swap.
  - exists (c + c')%nat. eapply reach_trans; eassumption.
Qed.

(** ** [sorted] and the permutations of [1..N] *)

Lemma sorted_Permutation l : sorted l ≡ₚ l.
Proof. apply merge_sort_Permutation. Qed.

Lemma reach_sorted P : exists c, reach P c (sorted P).
Proof. apply reach_any. symmetry. apply sorted_Permutation. Qed.

Lemma range_elem a b k : k ∈ range a b <-> a <= k < b.
Proof. unfold range. rewrite elem_of_seqZ. lia. Qed.

(** A path from [P] to [s], flip by flip. *)
Definition path_to (P : list Z) (p : list (list Z)) (s : list Z) : Prop :=
  head p = Some P /\ last p = Some s /\ flips_only p.

Lemma path_to_start P : path_to P [P] P.
Proof.
  repeat split. intros i s t _ Ht. destruct i; discriminate Ht.
Qed.

Lemma path_to_flip P p s k :
  path_to P p s -> 2 <= k <= Z.of_nat (length s) ->
  path_to P (p ++ [flip s k]) (flip s k).
Proof.
  intros (Hhd & Hlast & Hflips) Hk. repeat split.
  - destruct p; [discriminate Hhd | exact Hhd].
  - apply last_snoc.
  - intros i a b Ha Hb.
    destruct (decide (S i < length p)%nat) as [Hlt|Hge].
    + rewrite lookup_app_l in Ha by lia. rewrite lookup_app_l in Hb by lia.
      exact (Hflips i a b Ha Hb).
    + assert (Hi : S i = length p).
      { apply lookup_lt_Some in Hb. rewrite length_app in Hb. simpl in Hb. lia. }
      rewrite lookup_app_l in Ha by lia.
      rewrite last_lookup in Hlast.
      replace (pred (length p)) with i in Hlast by lia.
      rewrite Hlast in Ha. injection Ha as <-.
      rewrite lookup_app_r in Hb by lia.
      replace (S i - length p)%nat with 0%nat in Hb by lia.
      injection Hb as <-. exists k. auto.
Qed.

(** ** The invariant of the search loop *)

Section Invariant.
Context {N : Type} `{Node N}.
Variable key : N -> Z.
Variable child : N -> list Z -> N.
Variable h : list Z -> Z.
Variable P : list Z.

Hypothesis child_stack : forall n s, stack (child n s) = s.
Hypothesis child_cost :
  forall n s, backwards_cost (child n s) = backwards_cost n + 1.
Hypothesis child_path : forall n s, path (child n s) = path n ++ [s].
Hypothesis child_key :
  forall n s, key (child n s) = backwards_cost n + 1 + h s.
Hypothesis h_flip : forall s k, h s <= 1 + h (flip s k).

Implicit Types (n m cur : N) (self : Search N).

(** The open and the closed nodes together. *)
Definition nodes self : list N := expanded self ++ traversed self.

(** A node tells the truth about its stack. *)
Record sound n : Prop := {
  sound_reach :
    exists c : nat, backwards_cost n = Z.of_nat c /\ reach P c (stack n);
  sound_path : path_to P (path n) (stack n);
  sound_length : Z.of_nat (length (path n)) = backwards_cost n + 1;
  sound_key : key n = backwards_cost n + h (stack n)
}.

Record core self : Prop := {
  core_goal : goal_stack self = sorted P;
  core_sound : forall n, n ∈ nodes self -> sound n;
  core_nodup : NoDup (stack <$> nodes self);
  core_best :
    forall n c, n ∈ traversed self -> reach P c (stack n) ->
    backwards_cost n <= Z.of_nat c;
  core_root : exists m, m ∈ nodes self /\ stack m = P /\ backwards_cost m <= 0
}.

(** The flip [k] of the closed node [n] has a node that costs one more at
    most. *)
Definition flip_known self n (k : Z) : Prop :=
  exists m, m ∈ nodes self /\ stack m = flip (stack n) k
            /\ backwards_cost m <= backwards_cost n + 1.

Definition flips_known (pending : list Z -> Z -> Prop) self : Prop :=
  forall n k, n ∈ traversed self ->
  2 <= k <= Z.of_nat (length (stack n)) ->
  pending (stack n) k \/ flip_known self n k.

Definition goal_open self : Prop :=
  forall n, n ∈ traversed self -> stack n <> goal_stack self.

Definition none : list Z -> Z -> Prop := fun _ _ => False.

Definition still cur (ks : list Z) : list Z -> Z -> Prop :=
  fun s k => s = stack cur /\ k ∈ ks.

Definition good (pt : point) self : Prop :=
  match pt with
  | AtWhile => core self /\ flips_known none self /\ goal_open self
  | InFor cur ks =>
      core self /\ flips_known (still cur ks) self /\ goal_open self
      /\ cur ∈ traversed self
      /\ (forall k, k ∈ ks -> 2 <= k <= Z.of_nat (length (stack cur)))
  | AtReturn n =>
      core self /\ n ∈ traversed self /\ stack n = goal_stack self
  end.

Lemma reach_h s c t : reach s c t -> h s <= Z.of_nat c + h t.
Proof.
  induction 1 as [|c t k _ IH _]; [lia|].
  pose proof (h_flip t k). lia.
Qed.

(** Every state some flips away from [P] is closed, or an open node lies
    on the way to it. *)
Lemma frontier self c t :
  core self -> flips_known none self -> reach P c t ->
  (exists m, m ∈ traversed self /\ stack m = t
             /\ backwards_cost m <= Z.of_nat c)
  \/ (exists m (j : nat), m ∈ expanded self /\ (j <= c)%nat
             /\ backwards_cost m <= Z.of_nat j
             /\ reach (stack m) (c - j) t).
Proof.
  intros Hc Hk Hr. induction Hr as [|c t k Hr IH Hkk].
  - destruct (core_root _ Hc) as (m & Hm & Hs & Hcost).
    apply elem_of_app in Hm as [Hm|Hm].
    + right. exists m, 0%nat. rewrite Hs. repeat split; auto.
      apply reach_here.
    + left. exists m. auto.
  - destruct IH as [(m & Hm & Hs & Hcost)|(m & j & Hm & Hj & Hcost & Hr')].
    + destruct (Hk m k Hm) as [[]|(m' & Hm' & Hs' & Hcost')];
        [rewrite Hs; exact Hkk|].
      rewrite Hs in Hs'.
      apply elem_of_app in Hm' as [Hm'|Hm'].
      * right. exists m', (S c). rewrite Nat.sub_diag, Hs'.
        repeat split; [exact Hm' | lia | lia | apply reach_here].
      * left. exists m'. repeat split; [exact Hm' | exact Hs' | lia].
    + right. exists m, j. repeat split; [exact Hm | lia | exact Hcost |].
      replace (S c - j)%nat with (S (c - j)) by lia.
      apply reach_flip; assumption.
Qed.

Lemma closed_bound self :
  core self -> (length (traversed self) <= length (permutations P))%nat.
Proof.
  intros Hc. rewrite <- (length_fmap stack (traversed self)).
  apply submseteq_length, NoDup_submseteq.
  - pose proof (core_nodup _ Hc) as Hnd. unfold nodes in Hnd.
    rewrite fmap_app in Hnd. apply NoDup_app in Hnd. tauto.
  - intros s (n & -> & Hn)%list_elem_of_fmap.
    apply permutations_Permutation.
    destruct (sound_reach n) as (c & _ & Hr).
    { apply (core_sound _ Hc). apply elem_of_app. auto. }
    eapply reach_Permutation, Hr.
Qed.

(** *** Closing the lowest node *)

Definition closed_state self cur (rest : list N) : Search N :=
  mkSearch (root self) rest (traversed self ++ [cur]) (goal_stack self)
    (nodes_expanded self).

Lemma close_sorted self cur rest :
  sort_by key (expanded self) = cur :: rest ->
  close key self = Ok (cur, closed_state self cur rest).
Proof.
  intros E. destruct self as [r e t g c]. unfold close, lowest, closed_state.
  simpl in *. rewrite E. simpl. unfold node_eq.
  rewrite bool_decide_eq_true_2 by reflexivity. reflexivity.
Qed.

Lemma expanded_nonempty self :
  good AtWhile self -> expanded self <> [].
Proof.
  intros (Hc & Hk & Ho) E. destruct (reach_sorted P) as [c Hr].
  destruct (frontier self c _ Hc Hk Hr)
    as [(m & Hm & Hs & _)|(m & j & Hm & _)].
  - apply (Ho m Hm). rewrite Hs. symmetry. apply (core_goal _ Hc).
  - rewrite E in Hm. apply elem_of_nil in Hm. exact Hm.
Qed.

Lemma closed_nodes self cur rest :
  sort_by key (expanded self) = cur :: rest ->
  nodes (closed_state self cur rest) ≡ₚ nodes self.
Proof.
  intros E. unfold nodes, closed_state. simpl.
  rewrite <- (sort_by_Permutation key (expanded self)), E.
  rewrite (Permutation_app_comm (traversed self) [cur]). simpl.
  rewrite <- Permutation_middle. reflexivity.
Qed.

(** Two nodes of a duplicate-free list with one stack: the open one is
    not closed. *)
Lemma open_not_closed self n m :
  core self -> n ∈ expanded self -> m ∈ traversed self ->
  stack m <> stack n.
Proof.
  intros Hc Hn Hm E. pose proof (core_nodup _ Hc) as Hnd.
  unfold nodes in Hnd. rewrite fmap_app in Hnd.
  apply NoDup_app in Hnd as (_ & Hdis & _).
  apply (Hdis (stack n)); [apply list_elem_of_fmap_2, Hn|].
  rewrite <- E. apply list_elem_of_fmap_2, Hm.
Qed.

(** The node the loop closes has the lowest cost its stack can have. *)
Lemma closed_best self cur rest c :
  good AtWhile self ->
  sort_by key (expanded self) = cur :: rest ->
  reach P c (stack cur) -> backwards_cost cur <= Z.of_nat c.
Proof.
  intros (Hc & Hk & Ho) E Hr.
  assert (Hcur : cur ∈ expanded self).
  { rewrite <- (sort_by_Permutation key), E. apply elem_of_cons. auto. }
  destruct (frontier self c _ Hc Hk Hr)
    as [(m & Hm & Hs & _)|(m & j & Hm & Hj & Hcost & Hr')].
  - exfalso. exact (open_not_closed self cur m Hc Hcur Hm Hs).
  - pose proof (sort_by_lowest key _ _ _ E m Hm) as Hlow.
    assert (Sm : sound m) by (apply (core_sound _ Hc), elem_of_app; auto).
    assert (Sc : sound cur) by (apply (core_sound _ Hc), elem_of_app; auto).
    rewrite (sound_key _ Sm), (sound_key _ Sc) in Hlow.
    pose proof (reach_h _ _ _ Hr'). lia.
Qed.

Lemma closed_core self cur rest :
  good AtWhile self ->
  sort_by key (expanded self) = cur :: rest ->
  core (closed_state self cur rest).
Proof.
  intros Hg E. pose proof Hg as (Hc & Hk & Ho).
  pose proof (closed_nodes self cur rest E) as Hp.
  split.
  - apply (core_goal _ Hc).
  - intros n Hn. rewrite Hp in Hn. apply (core_sound _ Hc), Hn.
  - rewrite Hp. apply (core_nodup _ Hc).
  - intros n c Hn Hr. simpl in Hn.
    apply elem_of_app in Hn as [Hn|Hn%list_elem_of_singleton].
    + apply (core_best _ Hc); assumption.
    + subst n. eapply closed_best; eassumption.
  - destruct (core_root _ Hc) as (m & Hm & Hs).
    exists m. rewrite Hp. auto.
Qed.

Lemma closed_good self cur rest :
  good AtWhile self ->
  sort_by key (expanded self) = cur :: rest ->
  let self' := closed_state self cur rest in
  (stack cur = goal_stack self' -> good (AtReturn cur) self')
  /\ (stack cur <> goal_stack self' ->
      good (InFor cur
              (range 2 (Z.of_nat (length (stack cur)) + 1))) self').
Proof.
  intros Hg E self'. subst self'. pose proof Hg as (Hc & Hk & Ho).
  pose proof (closed_core self cur rest Hg E) as Hc'.
  pose proof (closed_nodes self cur rest E) as Hp.
  assert (Hin : cur ∈ traversed (closed_state self cur rest)).
  { simpl. apply elem_of_app. right. apply list_elem_of_singleton. reflexivity. }
  split; intros Hgoal.
  - split; [exact Hc' | split; [exact Hin | exact Hgoal]].
  - split; [exact Hc'|]. split; [|split; [|split; [exact Hin|]]].
    + intros n k Hn Hkk. simpl in Hn.
      apply elem_of_app in Hn as [Hn|Hn%list_elem_of_singleton].
      * right. destruct (Hk n k Hn Hkk) as [[]|(m & Hm & Hs)].
        exists m. rewrite Hp. auto.
      * subst n. left. split; [reflexivity|]. apply range_elem. lia.
    + intros n Hn. simpl in Hn.
      apply elem_of_app in Hn as [Hn|Hn%list_elem_of_singleton].
      * apply Ho, Hn.
      * subst n. exact Hgoal.
    + intros k Hkk%range_elem. lia.
Qed.

(** *** Merging one flip of the closed node *)

Lemma child_sound cur i :
  sound cur -> 2 <= i <= Z.of_nat (length (stack cur)) ->
  sound (child cur (flip (stack cur) i)).
Proof.
  intros [(c & Hcost & Hr) Hp Hl Hkey] Hi. split.
  - exists (S c). rewrite child_stack, child_cost. split; [lia|].
    apply reach_flip; assumption.
  - rewrite child_stack, child_path. apply path_to_flip; assumption.
  - rewrite child_path, child_cost, length_app. simpl. lia.
  - rewrite child_key, child_cost, child_stack. lia.
Qed.

(** What a merge has to leave behind. *)
Lemma merged_good self self' cur i ks :
  good (InFor cur (i :: ks)) self ->
  goal_stack self' = goal_stack self ->
  traversed self' = traversed self ->
  (forall n, n ∈ nodes self' -> sound n) ->
  NoDup (stack <$> nodes self') ->
  (forall m, m ∈ nodes self ->
     exists m', m' ∈ nodes self' /\ stack m' = stack m
                /\ backwards_cost m' <= backwards_cost m) ->
  (exists m, m ∈ nodes self' /\ stack m = flip (stack cur) i
             /\ backwards_cost m <= backwards_cost cur + 1) ->
  good (InFor cur ks) self'.
Proof.
  intros (Hc & Hk & Ho & Hcur & Hks) Eg Et Hsound Hnd Hmono Hnew.
  split; [split|split; [|split; [|split]]].
  - rewrite Eg. apply (core_goal _ Hc).
  - exact Hsound.
  - exact Hnd.
  - rewrite Et. apply (core_best _ Hc).
  - destruct (core_root _ Hc) as (m & Hm & Hs & Hcost).
    destruct (Hmono m Hm) as (m' & Hm' & Hs' & Hcost').
    exists m'. split; [exact Hm'|]. split; [congruence | lia].
  - intros n k Hn Hkk. rewrite Et in Hn.
    destruct (Hk n k Hn Hkk) as [[Es Hin]|(m & Hm & Hs & Hcost)].
    + apply elem_of_cons in Hin as [->|Hin]; [|left; split; assumption].
      right. destruct Hnew as (m & Hm & Hs & Hcost).
      exists m. split; [exact Hm|]. split; [congruence|].
      assert (backwards_cost cur <= backwards_cost n); [|lia].
      destruct (sound_reach n) as (c & Ec & Hr).
      { apply (core_sound _ Hc), elem_of_app. auto. }
      rewrite Ec. apply (core_best _ Hc); [exact Hcur|].
      rewrite <- Es. exact Hr.
    + right. destruct (Hmono m Hm) as (m' & Hm' & Hs' & Hcost').
      exists m'. split; [exact Hm'|]. split; [congruence | lia].
  - intros n Hn. rewrite Et in Hn. rewrite Eg. apply Ho, Hn.
  - rewrite Et. exact Hcur.
  - intros k Hkk. apply Hks, elem_of_cons. auto.
Qed.

Lemma replaced_Permutation {A} (l1 l2 t : list A) x :
  ((l1 ++ l2) ++ [x]) ++ t ≡ₚ (l1 ++ x :: l2) ++ t.
Proof.
  rewrite <- !app_assoc. apply Permutation_app_head. simpl.
  rewrite Permutation_middle. reflexivity.
Qed.

Lemma merge_good self cur i ks :
  good (InFor cur (i :: ks)) self ->
  exists self',
    merge key child cur self i = Ok self'
    /\ good (InFor cur ks) self'
    /\ traversed self' = traversed self
    /\ nodes_expanded self' = nodes_expanded self + 1.
Proof.
  intros Hg. pose proof Hg as (Hc & Hk & Ho & Hcur & Hks).
  assert (Hi : 2 <= i <= Z.of_nat (length (stack cur))).
  { apply Hks, elem_of_cons. auto. }
  assert (Scur : sound cur).
  { apply (core_sound _ Hc), elem_of_app. auto. }
  pose proof (child_sound cur i Scur Hi) as Snew.
  pose proof (child_stack cur (flip (stack cur) i)) as Hst.
  pose proof (child_cost cur (flip (stack cur) i)) as Hco.
  unfold merge.
  set (new := child cur (flip (stack cur) i)) in *.
  destruct self as [r e t g cnt].
  cbn [expanded traversed set_nodes_expanded set_expanded root goal_stack
       nodes_expanded] in *.
  assert (Hsound : forall n, n ∈ e ++ t -> sound n) by apply (core_sound _ Hc).
  assert (Hnd : NoDup (stack <$> e ++ t)) by apply (core_nodup _ Hc).
  destruct (node_in new e) eqn:Hexp; simpl negb; simpl andb; cbv iota.
  - apply node_in_true in Hexp.
    destruct (first_with _ _ Hexp) as (l1 & old & l2 & -> & Hold & Hl1).
    rewrite <- Hold.
    rewrite get_node_by_stack_first by (rewrite Hold; exact Hl1).
    assert (Sold : sound old).
    { apply Hsound. rewrite !elem_of_app, elem_of_cons. auto. }
    pose proof (sound_key _ Sold) as Kold.
    pose proof (sound_key _ Snew) as Knew. rewrite <- Hold in Knew.
    destruct (Z.ltb_spec (key new) (key old)) as [Hlt|Hge].
    + rewrite (list_remove_first old l1 old l2 eq_refl)
        by (rewrite Hold; exact Hl1).
      cbn [mbind result_bind].
      eexists. split; [reflexivity|]. split; [|split; reflexivity].
      apply (merged_good _ _ cur i ks Hg); try reflexivity;
        unfold nodes; cbn [expanded traversed set_expanded set_nodes_expanded].
      * intros n Hn. rewrite replaced_Permutation in Hn.
        rewrite !elem_of_app, elem_of_cons in Hn.
        destruct Hn as [[Hn|[->|Hn]]|Hn]; [| exact Snew | |];
          apply Hsound; rewrite !elem_of_app, elem_of_cons; auto.
      * rewrite replaced_Permutation.
        rewrite !fmap_app, fmap_cons in Hnd |- *. rewrite <- Hold. exact Hnd.
      * intros m Hm. rewrite !elem_of_app, elem_of_cons in Hm.
        destruct Hm as [[Hm|[->|Hm]]|Hm];
          [exists m | exists new | exists m | exists m];
          rewrite replaced_Permutation, !elem_of_app, elem_of_cons;
          (split; [auto|]); (split; [congruence | lia]).
      * exists new. rewrite replaced_Permutation.
        rewrite !elem_of_app, elem_of_cons.
        split; [auto|]. split; [congruence | lia].
    + eexists. split; [reflexivity|]. split; [|split; reflexivity].
      apply (merged_good _ _ cur i ks Hg); try reflexivity;
        unfold nodes; cbn [expanded traversed set_expanded set_nodes_expanded].
      * exact Hsound.
      * exact Hnd.
      * intros m Hm. exists m. split; [exact Hm|]. split; [reflexivity | lia].
      * exists old. rewrite !elem_of_app, elem_of_cons.
        split; [auto|]. split; [congruence | lia].
  - apply node_in_false in Hexp.
    destruct (node_in new t) eqn:Htrav; simpl negb; cbv iota.
    + apply node_in_true in Htrav.
      apply list_elem_of_fmap in Htrav as (m & Em & Hm).
      eexists. split; [reflexivity|]. split; [|split; reflexivity].
      apply (merged_good _ _ cur i ks Hg); try reflexivity;
        unfold nodes; cbn [expanded traversed set_expanded set_nodes_expanded].
      * exact Hsound.
      * exact Hnd.
      * intros m' Hm'. exists m'. split; [exact Hm'|].
        split; [reflexivity | lia].
      * exists m. rewrite elem_of_app.
        split; [auto|]. split; [congruence|].
        destruct (sound_reach _ Snew) as (c & Ec & Hr).
        rewrite <- Hco, Ec. apply (core_best _ Hc); [exact Hm|].
        rewrite <- Em. exact Hr.
    + apply node_in_false in Htrav.
      eexists. split; [reflexivity|]. split; [|split; reflexivity].
      apply (merged_good _ _ cur i ks Hg); try reflexivity;
        unfold nodes; cbn [expanded traversed set_expanded set_nodes_expanded].
      * intros n Hn. rewrite !elem_of_app, list_elem_of_singleton in Hn.
        destruct Hn as [[Hn| ->]|Hn]; [| exact Snew |];
          apply Hsound; rewrite elem_of_app; auto.
      * rewrite fmap_app in Hnd. rewrite !fmap_app. simpl.
        rewrite <- app_assoc. simpl. rewrite <- Permutation_middle.
        apply NoDup_cons. split; [|exact Hnd].
        rewrite elem_of_app. tauto.
      * intros m Hm. exists m. rewrite elem_of_app in Hm.
        rewrite !elem_of_app.
        split; [tauto|]. split; [reflexivity | lia].
      * exists new. rewrite !elem_of_app, list_elem_of_singleton.
        split; [auto|]. split; [congruence | lia].
Qed.

Lemma merge_all_good cur ks : forall self,
  good (InFor cur ks) self ->
  exists self',
    merge_all key child cur self ks = Ok self'
    /\ good (InFor cur []) self'
    /\ traversed self' = traversed self
    /\ nodes_expanded self'
       = nodes_expanded self + Z.of_nat (length ks).
Proof.
  induction ks as [|i ks IH]; intros self Hg.
  - exists self. cbn [merge_all length].
    split; [reflexivity|]. split; [exact Hg|]. split; [reflexivity | lia].
  - destruct (merge_good self cur i ks Hg) as (self1 & E1 & Hg1 & Et1 & En1).
    destruct (IH self1 Hg1) as (self2 & E2 & Hg2 & Et2 & En2).
    exists self2. cbn [merge_all]. rewrite E1. cbn [mbind result_bind].
    split; [exact E2|]. split; [exact Hg2|]. split; [congruence|].
    rewrite En2, En1. simpl length. lia.
Qed.

Lemma for_done cur self : good (InFor cur []) self -> good AtWhile self.
Proof.
  intros (Hc & Hk & Ho & _). split; [exact Hc|]. split; [|exact Ho].
  intros n k Hn Hkk. destruct (Hk n k Hn Hkk) as [[_ []%elem_of_nil]|Hf].
  right. exact Hf.
Qed.

(** *** One pass, and the whole loop *)

Lemma pass_good self :
  good AtWhile self ->
  (exists n self',
      pass key child self = Ok (Return n self')
      /\ good (AtReturn n) self')
  \/ (exists self',
      pass key child self = Ok (Continue self')
      /\ good AtWhile self'
      /\ length (traversed self') = S (length (traversed self))).
Proof.
  intros Hg.
  destruct (sort_by key (expanded self)) as [|cur rest] eqn:E.
  { apply sort_by_nil in E. destruct (expanded_nonempty self Hg E). }
  destruct (closed_good self cur rest Hg E) as [Hret Hfor].
  unfold pass. rewrite (close_sorted self cur rest E).
  cbn [mbind result_bind].
  destruct (decide (stack cur = goal_stack (closed_state self cur rest)))
    as [Hgoal|Hgoal].
  - left. rewrite bool_decide_eq_true_2 by exact Hgoal. eauto.
  - right. rewrite bool_decide_eq_false_2 by exact Hgoal.
    destruct (merge_all_good cur _ _ (Hfor Hgoal)) as (self' & E' & Hg' & Et & _).
    exists self'. rewrite E'. cbn [mbind result_bind].
    split; [reflexivity|]. split; [exact (for_done cur self' Hg')|].
    rewrite Et. simpl. rewrite length_app. simpl. lia.
Qed.

Lemma loop_returns fuel : forall self,
  good AtWhile self ->
  (length (permutations P) < fuel + length (traversed self))%nat ->
  exists n self',
    loop key child fuel self = Some (Ok (n, self'))
    /\ good (AtReturn n) self'.
Proof.
  induction fuel as [|fuel IH]; intros self Hg Hfuel.
  - pose proof (closed_bound self (proj1 Hg)). lia.
  - cbn [loop].
    destruct (pass_good self Hg)
      as [(n & self' & E & Hg')|(self' & E & Hg' & Hlen)]; rewrite E.
    + eauto.
    + apply IH; [exact Hg' | lia].
Qed.

Lemma visits_good start pt self :
  good AtWhile start -> visits key child start pt self -> good pt self.
Proof.
  intros Hstart Hv.
  induction Hv as [|self cur self' _ IH E Hgoal|self cur self' _ IH E Hgoal
                   |self cur i ks self' _ IH E|self cur _ IH].
  - exact Hstart.
  - destruct (sort_by key (expanded self)) as [|cur' rest] eqn:Es.
    { apply sort_by_nil in Es. destruct (expanded_nonempty self IH Es). }
    rewrite (close_sorted self cur' rest Es) in E. injection E as <- <-.
    apply (closed_good self cur' rest IH Es), Hgoal.
  - destruct (sort_by key (expanded self)) as [|cur' rest] eqn:Es.
    { apply sort_by_nil in Es. destruct (expanded_nonempty self IH Es). }
    rewrite (close_sorted self cur' rest Es) in E. injection E as <- <-.
    apply (closed_good self cur' rest IH Es), Hgoal.
  - destruct (merge_good self cur i ks IH) as (self1 & E1 & Hg1 & _).
    rewrite E1 in E. injection E as <-. exact Hg1.
  - exact (for_done cur self IH).
Qed.

(** The state a search starts its loop in. *)
Lemma start_good self r :
  expanded self = [r] -> traversed self = [] ->
  goal_stack self = sorted P ->
  stack r = P -> backwards_cost r = 0 -> path r = [P] -> key r = h P ->
  good AtWhile self.
Proof.
  intros Ee Et Eg Es Ec Ep Ek.
  assert (En : nodes self = [r]) by (unfold nodes; rewrite Ee, Et; reflexivity).
  split; [split|split].
  - exact Eg.
  - intros n Hn. rewrite En in Hn. apply list_elem_of_singleton in Hn as ->.
    split.
    + exists 0%nat. rewrite Ec, Es. split; [reflexivity | apply reach_here].
    + rewrite Ep, Es. apply path_to_start.
    + rewrite Ep, Ec. reflexivity.
    + rewrite Ek, Ec, Es. lia.
  - rewrite En. simpl. apply NoDup_singleton.
  - intros n c Hn. rewrite Et in Hn. destruct (elem_of_nil n). tauto.
  - exists r. rewrite En, list_elem_of_singleton. split; [reflexivity|].
    split; [exact Es | lia].
  - intros n k Hn. rewrite Et in Hn. destruct (elem_of_nil n). tauto.
  - intros n Hn. rewrite Et in Hn. destruct (elem_of_nil n). tauto.
Qed.

(** What the returned node is worth. *)
Lemma returned_node n self :
  good (AtReturn n) self ->
  stack n = sorted P
  /\ path_to P (path n) (sorted P)
  /\ Z.of_nat (length (path n)) - 1 = backwards_cost n
  /\ (exists c : nat, backwards_cost n = Z.of_nat c /\ reach P c (sorted P))
  /\ (forall c, reach P c (sorted P) -> backwards_cost n <= Z.of_nat c).
Proof.
  intros (Hc & Hn & Hgoal). rewrite (core_goal _ Hc) in Hgoal.
  assert (Sn : sound n) by (apply (core_sound _ Hc), elem_of_app; auto).
  destruct Sn as [Hr Hp Hl _]. rewrite Hgoal in Hr, Hp.
  split; [exact Hgoal|]. split; [exact Hp|]. split; [lia|].
  split; [exact Hr|]. intros c Hc'. apply (core_best _ Hc); [exact Hn|].
  rewrite Hgoal. exact Hc'.
Qed.
End Invariant.

Section LoopFacts.
Context {N : Type} `{Node N}.
Variable key : N -> Z.
Variable child : N -> list Z -> N.

(** More fuel does not change what the loop returns. *)
Lemma loop_more_fuel fuel : forall fuel' self r,
  loop key child fuel self = Some r -> (fuel <= fuel')%nat ->
  loop key child fuel' self = Some r.
Proof.
  induction fuel as [|fuel IH]; intros fuel' self r E Hle; [discriminate E|].
  destruct fuel' as [|fuel']; [lia|]. cbn [loop] in *.
  destruct (pass key child self) as [[n s|s]|e]; try exact E.
  apply IH; [exact E | lia].
Qed.
End LoopFacts.

(** ** The loop goes through the states of [visits] *)

Section RunFacts.
Context {N : Type} `{Node N}.
Variable key : N -> Z.
Variable child : N -> list Z -> N.
Variable start : Search N.

Lemma merge_all_visits cur ks : forall self self',
  visits key child start (InFor cur ks) self ->
  merge_all key child cur self ks = Ok self' ->
  visits key child start (InFor cur []) self'.
Proof.
  induction ks as [|i ks IH]; intros self self' Hv E; cbn [merge_all] in E.
  - injection E as <-. exact Hv.
  - destruct (merge key child cur self i) as [self1|e] eqn:E1;
      cbn [mbind result_bind] in E; [|discriminate E].
    apply (IH self1 self'); [|exact E].
    eapply visits_merge; eassumption.
Qed.

Lemma pass_visits self :
  visits key child start AtWhile self ->
  match pass key child self with
  | Ok (Return node self') => visits key child start (AtReturn node) self'
  | Ok (Continue self') => visits key child start AtWhile self'
  | Raise _ => True
  end.
Proof.
  intros Hv. unfold pass.
  destruct (close key self) as [[cur self1]|e] eqn:E;
    cbn [mbind result_bind]; [|exact I].
  destruct (decide (stack cur = goal_stack self1)) as [Hgoal|Hgoal].
  - rewrite bool_decide_eq_true_2 by exact Hgoal.
    eapply visits_goal; eassumption.
  - rewrite bool_decide_eq_false_2 by exact Hgoal.
    destruct (merge_all key child cur self1 _) as [self2|e] eqn:E2;
      cbn [mbind result_bind]; [|exact I].
    eapply visits_while, merge_all_visits; [|exact E2].
    eapply visits_for; eassumption.
Qed.

Lemma loop_visits fuel : forall self node self',
  visits key child start AtWhile self ->
  loop key child fuel self = Some (Ok (node, self')) ->
  visits key child start (AtReturn node) self'.
Proof.
  induction fuel as [|fuel IH]; intros self node self' Hv E; [discriminate E|].
  cbn [loop] in E. pose proof (pass_visits self Hv) as Hp.
  destruct (pass key child self) as [[n s|s]|e].
  - injection E as <- <-. exact Hp.
  - eapply IH; eassumption.
  - discriminate E.
Qed.
End RunFacts.

(** ** The two searches are instances *)

Definition no_heuristic (s : list Z) : Z := 0.

Lemma ucs_child_stack n s : stack (ucs_child n s) = s.
Proof. reflexivity. Qed.

Lemma ucs_child_cost n s :
  backwards_cost (ucs_child n s) = backwards_cost n + 1.
Proof. reflexivity. Qed.

Lemma ucs_child_path n s : path (ucs_child n s) = path n ++ [s].
Proof. reflexivity. Qed.

Lemma astar_child_stack n s : stack (astar_child n s) = s.
Proof. reflexivity. Qed.

Lemma astar_child_cost n s :
  backwards_cost (astar_child n s) = backwards_cost n + 1.
Proof. reflexivity. Qed.

Lemma astar_child_path n s : path (astar_child n s) = path n ++ [s].
Proof. reflexivity. Qed.

Lemma ucs_child_key n s :
  backwards_cost (ucs_child n s) = backwards_cost n + 1 + no_heuristic s.
Proof. unfold no_heuristic. simpl. lia. Qed.

Lemma no_heuristic_flip s k : no_heuristic s <= 1 + no_heuristic (flip s k).
Proof. unfold no_heuristic. lia. Qed.

Lemma astar_child_key n s :
  total_cost (astar_child n s)
  = backwards_cost n + 1 + Astar.calculate_heuristic_value s.
Proof. simpl. lia. Qed.

Lemma astar_h_flip s k :
  Astar.calculate_heuristic_value s
  <= 1 + Astar.calculate_heuristic_value (flip s k).
Proof.
  rewrite !calculate_heuristic_value_gaps. pose proof (gaps_flip s k). lia.
Qed.

Lemma ucs_start_good P :
  good backwards_cost no_heuristic P AtWhile (ucs_start P).
Proof.
  apply (start_good _ _ _ _ (mkUcsNode P 0 [P])); reflexivity.
Qed.

Lemma astar_start_good P :
  good total_cost Astar.calculate_heuristic_value P AtWhile (astar_start P).
Proof.
  eapply start_good; try reflexivity. simpl. lia.
Qed.

(** What a run returns: the node of the sorted stack, by a path of flips
    from [P], and no path of flips is shorter. *)
Record answer {N : Type} `{Node N} (P : list Z) (node : N) : Prop := {
  answer_stack : stack node = sorted P;
  answer_path : path_to P (path node) (sorted P);
  answer_length : Z.of_nat (length (path node)) - 1 = backwards_cost node;
  answer_reach :
    exists c : nat, backwards_cost node = Z.of_nat c /\ reach P c (sorted P);
  answer_least :
    forall c, reach P c (sorted P) -> backwards_cost node <= Z.of_nat c
}.

Lemma run_ucs_returns P :
  exists node self,
    (forall fuel, (S (length (permutations P)) <= fuel)%nat ->
       run_ucs fuel P = Some (Ok (node, self)))
    /\ answer P node
    /\ visits backwards_cost ucs_child (ucs_start P) (AtReturn node) self.
Proof.
  pose proof (ucs_start_good P) as Hg.
  destruct (loop_returns backwards_cost ucs_child no_heuristic P
              ucs_child_stack ucs_child_cost ucs_child_path
              ucs_child_key no_heuristic_flip
              (S (length (permutations P))) (ucs_start P) Hg ltac:(simpl; lia))
    as (node & self & E & Hret).
  exists node, self. split; [|split].
  - intros fuel Hfuel. rewrite run_ucs_loop.
    eapply loop_more_fuel; eassumption.
  - destruct (returned_node _ _ _ _ _ Hret) as (? & ? & ? & ? & ?).
    split; assumption.
  - eapply loop_visits; [apply visits_start | exact E].
Qed.

Lemma run_astar_returns P :
  exists node self,
    (forall fuel, (S (length (permutations P)) <= fuel)%nat ->
       run_astar fuel P = Some (Ok (node, self)))
    /\ answer P node
    /\ visits total_cost astar_child (astar_start P) (AtReturn node) self.
Proof.
  pose proof (astar_start_good P) as Hg.
  destruct (loop_returns total_cost astar_child
              Astar.calculate_heuristic_value P
              astar_child_stack astar_child_cost astar_child_path
              astar_child_key astar_h_flip
              (S (length (permutations P))) (astar_start P) Hg ltac:(simpl; lia))
    as (node & self & E & Hret).
  exists node, self. split; [|split].
  - intros fuel Hfuel. rewrite run_astar_loop.
    eapply loop_more_fuel; eassumption.
  - destruct (returned_node _ _ _ _ _ Hret) as (? & ? & ? & ? & ?).
    split; assumption.
  - eapply loop_visits; [apply visits_start | exact E].
Qed.

(** ** The validator accepts the permutations of [1..N] *)

Lemma remove_dups_length (l : list Z) :
  (length (remove_dups l) <= length l)%nat.
Proof.
  induction l as [|x l IH]; simpl; [lia|].
  destruct (decide_rel elem_of x l); simpl; lia.
Qed.

Lemma remove_dups_same_length (l : list Z) :
  length l = length (remove_dups l) <-> NoDup l.
Proof.
  induction l as [|x l IH]; simpl.
  - split; [constructor | reflexivity].
  - pose proof (remove_dups_length l).
    destruct (decide_rel elem_of x l) as [Hin|Hout]; simpl.
    + split; [lia|]. intros [Hx _]%NoDup_cons. contradiction.
    + rewrite NoDup_cons. split.
      * intros E. split; [exact Hout|]. apply IH. lia.
      * intros [_ Hnd]. apply IH in Hnd. lia.
Qed.

Lemma range_length a b : length (range a b) = Z.to_nat (b - a).
Proof. apply length_seqZ. Qed.

Lemma is_stack_valid_spec P : is_stack_valid P = true <-> is_permutation P.
Proof.
  unfold is_stack_valid, is_permutation.
  set (r := range 1 (Z.of_nat (length P) + 1)).
  assert (Hlen : length r = length P).
  { unfold r. rewrite range_length. lia. }
  assert (Hnd : NoDup r) by apply NoDup_seqZ.
  split.
  - destruct (Nat.eqb_spec (length P) (length (remove_dups P))) as [E|NE];
      simpl; [|discriminate].
    intros Hall. rewrite forallb_forall in Hall.
    apply remove_dups_same_length in E. symmetry.
    apply submseteq_length_Permutation; [|lia].
    apply NoDup_submseteq; [exact Hnd|].
    intros x Hx. apply list_elem_of_In, Hall in Hx.
    apply bool_decide_eq_true in Hx. exact Hx.
  - intros Hp.
    assert (HndP : NoDup P) by (rewrite Hp; exact Hnd).
    apply remove_dups_same_length in HndP. rewrite <- HndP, Nat.eqb_refl. simpl.
    apply forallb_forall. intros x Hx. apply bool_decide_eq_true.
    rewrite Hp. apply list_elem_of_In, Hx.
Qed.

Lemma Sorted_seqZ m n : Sorted Z.le (seqZ m n).
Proof.
  remember (Z.to_nat n) as k eqn:Ek. revert m n Ek.
  induction k as [|k IH]; intros m n Ek.
  - rewrite seqZ_nil by lia. constructor.
  - rewrite seqZ_cons by lia. constructor; [apply IH; lia|].
    destruct (decide (Z.pred n <= 0)) as [Hle|Hgt].
    + rewrite seqZ_nil by exact Hle. constructor.
    + rewrite seqZ_cons by lia. constructor. lia.
Qed.

(** The goal of a permutation of [1..N] is [1..N] itself. *)
Lemma sorted_permutation P :
  is_permutation P -> sorted P = range 1 (Z.of_nat (length P) + 1).
Proof.
  intros Hp. apply (Sorted_unique Z.le).
  - apply Sorted_merge_sort. apply _.
  - apply Sorted_seqZ.
  - rewrite sorted_Permutation. exact Hp.
Qed.

(** Every state of a path of flips has the length of the first. *)
Lemma path_to_lengths P p s x :
  path_to P p s -> x ∈ p -> length x = length P.
Proof.
  intros (Hhd & _ & Hflips) [i Hi]%list_elem_of_lookup.
  revert x Hi. induction i as [|i IH]; intros x Hi.
  - rewrite <- head_lookup, Hhd in Hi. injection Hi as <-. reflexivity.
  - destruct (p !! i) as [y|] eqn:Hy.
    + destruct (Hflips i y x Hy Hi) as (k & _ & ->).
      rewrite flip_length. apply IH. reflexivity.
    + apply lookup_ge_None in Hy. apply lookup_lt_Some in Hi. lia.
Qed.

(** ** What a merge does with a state it knows *)

Section MergeFacts.
Context {N : Type} `{Node N}.
Variable key : N -> Z.
Variable child : N -> list Z -> N.
Hypothesis child_stack : forall n s, stack (child n s) = s.

Lemma NoDup_stack_eq (l : list N) x y :
  NoDup (stack <$> l) -> x ∈ l -> y ∈ l -> stack x = stack y -> x = y.
Proof.
  induction l as [|e l IH]; intros Hnd Hx Hy E.
  - apply elem_of_nil in Hx. contradiction.
  - rewrite fmap_cons in Hnd. apply NoDup_cons in Hnd as [He Hnd].
    apply elem_of_cons in Hx as [->|Hx]; apply elem_of_cons in Hy as [->|Hy].
    + reflexivity.
    + exfalso. apply He. rewrite E. apply list_elem_of_fmap_2, Hy.
    + exfalso. apply He. rewrite <- E. apply list_elem_of_fmap_2, Hx.
    + apply IH; assumption.
Qed.

(** The state is closed: the candidate is dropped, whatever it costs. *)
Lemma merge_closed cur self i :
  NoDup (stack <$> nodes self) ->
  flip (stack cur) i ∈ stack <$> traversed self ->
  merge key child cur self i
  = Ok (set_nodes_expanded self (nodes_expanded self + 1)).
Proof.
  intros Hnd Hin. unfold merge.
  set (new := child cur (flip (stack cur) i)).
  assert (Hst : stack new = flip (stack cur) i) by apply child_stack.
  cbn [expanded traversed set_nodes_expanded].
  unfold nodes in Hnd. rewrite fmap_app in Hnd.
  apply NoDup_app in Hnd as (_ & Hdis & _).
  assert (Hexp : node_in new (expanded self) = false).
  { apply node_in_false. rewrite Hst. intros Hexp. exact (Hdis _ Hexp Hin). }
  assert (Htrav : node_in new (traversed self) = true).
  { apply node_in_true. rewrite Hst. exact Hin. }
  rewrite Hexp, Htrav. reflexivity.
Qed.

(** The state is open: the candidate takes the place of the node there
    when its key is lower, and is dropped otherwise. *)
Lemma merge_open cur self i old :
  NoDup (stack <$> expanded self) ->
  old ∈ expanded self -> stack old = flip (stack cur) i ->
  let new_node := child cur (flip (stack cur) i) in
  let self1 := set_nodes_expanded self (nodes_expanded self + 1) in
  (key new_node < key old ->
     exists e, list_remove old (expanded self) = Ok e
               /\ expanded self ≡ₚ old :: e
               /\ merge key child cur self i
                  = Ok (set_expanded self1 (e ++ [new_node])))
  /\ (key old <= key new_node -> merge key child cur self i = Ok self1).
Proof.
  intros Hnd Hold Hs new_node self1. unfold merge. fold new_node. fold self1.
  assert (Hst : stack new_node = stack old).
  { unfold new_node. rewrite child_stack. congruence. }
  cbn [expanded traversed set_nodes_expanded self1].
  assert (Hin : stack old ∈ stack <$> expanded self)
    by apply list_elem_of_fmap_2, Hold.
  assert (Hexp : node_in new_node (expanded self) = true).
  { apply node_in_true. rewrite Hst. exact Hin. }
  rewrite Hexp. simpl negb. simpl andb. cbv iota.
  destruct (first_with _ _ Hin) as (l1 & y & l2 & El & Hy & Hl1).
  assert (y = old) as ->.
  { apply (NoDup_stack_eq (expanded self)); try assumption.
    rewrite El, elem_of_app, elem_of_cons. auto. }
  rewrite Hst, El, get_node_by_stack_first by exact Hl1.
  rewrite (list_remove_first old l1 old l2 eq_refl) by exact Hl1.
  split; intros Hcmp.
  - exists (l1 ++ l2). split; [reflexivity|].
    split; [symmetry; apply Permutation_middle|].
    destruct (Z.ltb_spec (key new_node) (key old)); [reflexivity | lia].
  - destruct (Z.ltb_spec (key new_node) (key old)); [lia | reflexivity].
Qed.
End MergeFacts.

Lemma good_core {N : Type} `{Node N} key h P pt (self : Search N) :
  good key h P pt self -> core key h P self.
Proof. destruct pt; intros Hg; apply Hg. Qed.

(** ** Runs of a few passes *)

(** [n] passes of the loop, none of which returns. *)
Fixpoint passes {N : Type} `{Node N} (key : N -> Z) (child : N -> list Z -> N)
    (n : nat) (self : Search N) : option (Search N) :=
  match n with
  | O => Some self
  | S n' =>
      match pass key child self with
      | Ok (Continue self') => passes key child n' self'
      | _ => None
      end
  end.

Lemma passes_visits {N : Type} `{Node N} key child (start : Search N) n :
  forall self self',
  visits key child start AtWhile self ->
  passes key child n self = Some self' ->
  visits key child start AtWhile self'.
Proof.
  induction n as [|n IH]; intros self self' Hv E; cbn [passes] in E.
  - injection E as <-. exact Hv.
  - pose proof (pass_visits key child start self Hv) as Hp.
    destruct (pass key child self) as [[node s|s]|e]; try discriminate E.
    eapply IH; eassumption.
Qed.

(** ** The number of arrangements *)

Lemma interleave_length (x : Z) l : length (interleave x l) = S (length l).
Proof.
  induction l as [|y l IH]; [reflexivity|].
  cbn [interleave length]. rewrite length_fmap, IH. reflexivity.
Qed.

Lemma bind_length (f : list Z -> list (list Z)) k (ls : list (list Z)) :
  (forall l, l ∈ ls -> length (f l) = k) ->
  length (ls ≫= f) = (length ls * k)%nat.
Proof.
  induction ls as [|l ls IH]; intros Hf; [reflexivity|].
  cbn [mbind list_bind length]. rewrite length_app.
  rewrite (Hf l) by (apply elem_of_cons; auto).
  change (list_bind _ _ f ls) with (ls ≫= f).
  rewrite IH by (intros l' Hl'; apply Hf, elem_of_cons; auto). lia.
Qed.

Lemma permutations_length (l : list Z) :
  length (permutations l) = fact (length l).
Proof.
  induction l as [|x l IH]; [reflexivity|].
  cbn [permutations length fact].
  rewrite (bind_length _ (S (length l))).
  - rewrite IH. lia.
  - intros l' Hl'. rewrite interleave_length.
    apply permutations_Permutation, Permutation_length in Hl'. lia.
Qed.

(** * The claims *)

(** What the claims say of a returned path: it starts with [P], ends with
    [1..N], each state is one flip with some [k] in [[2, N]] away from the
    one before, and its length less one is the cost. *)
Definition valid_path (P : list Z) (p : list (list Z)) (cost : Z) : Prop :=
  head p = Some P
  /\ last p = Some (range 1 (Z.of_nat (length P) + 1))
  /\ (forall (i : nat) s t, p !! i = Some s -> p !! S i = Some t ->
        exists k, 2 <= k <= Z.of_nat (length P) /\ t = flip s k)
  /\ Z.of_nat (length p) - 1 = cost.

Lemma answer_valid_path {N : Type} `{Node N} P (node : N) :
  is_permutation P -> answer P node ->
  valid_path P (path node) (backwards_cost node).
Proof.
  intros Hp [_ Hpath Hlen _ _]. pose proof Hpath as (Hhd & Hlast & Hflips).
  split; [exact Hhd|]. split; [rewrite <- (sorted_permutation P Hp); exact Hlast|].
  split; [|exact Hlen].
  intros i s t Hs Ht. destruct (Hflips i s t Hs Ht) as (k & Hk & ->).
  exists k. split; [|reflexivity].
  rewrite <- (path_to_lengths P _ _ s Hpath); [exact Hk|].
  apply list_elem_of_lookup. eauto.
Qed.

Lemma least_flips (P : list Z) (c1 c2 : Z) :
  (exists c : nat, c1 = Z.of_nat c /\ reach P c (sorted P)) ->
  (forall c, reach P c (sorted P) -> c2 <= Z.of_nat c) -> c2 <= c1.
Proof. intros (c & -> & Hr) Hleast. apply Hleast, Hr. Qed.

(** C1: for every permutation [P] of [1..N], the UCS run and the A* run
    both return a node, the two nodes have the same [backwards_cost], and
    that cost is the least number of flips that sort [P]. *)
Theorem ucs_astar_same_cost (P : list Z) :
  is_permutation P ->
  exists (fuel : nat) u su a sa,
    (forall fuel', (fuel <= fuel')%nat ->
       run_ucs fuel' P = Some (Ok (u, su))
       /\ run_astar fuel' P = Some (Ok (a, sa)))
    /\ backwards_cost u = backwards_cost a
    /\ (exists c : nat,
          backwards_cost u = Z.of_nat c /\ reach P c (sorted P)
          /\ forall c', reach P c' (sorted P) -> (c <= c')%nat).
Proof.
  intros _.
  destruct (run_ucs_returns P) as (u & su & Hu & Au & _).
  destruct (run_astar_returns P) as (a & sa & Ha & Aa & _).
  exists (S (length (permutations P))), u, su, a, sa.
  split; [intros fuel' Hfuel; split; [apply Hu | apply Ha]; exact Hfuel|].
  pose proof (least_flips P _ _ (answer_reach _ _ Au) (answer_least _ _ Aa)).
  pose proof (least_flips P _ _ (answer_reach _ _ Aa) (answer_least _ _ Au)).
  split; [lia|].
  destruct (answer_reach _ _ Au) as (c & Ec & Hr).
  exists c. split; [exact Ec|]. split; [exact Hr|].
  intros c' Hr'. pose proof (answer_least _ _ Au c' Hr'). lia.
Qed.

Lemma ucs_astar_same_cost_witness :
  is_permutation [2; 1]
  /\ exists (fuel : nat) u su a sa,
       (forall fuel', (fuel <= fuel')%nat ->
          run_ucs fuel' [2; 1] = Some (Ok (u, su))
          /\ run_astar fuel' [2; 1] = Some (Ok (a, sa)))
       /\ backwards_cost u = backwards_cost a
       /\ (exists c : nat,
             backwards_cost u = Z.of_nat c /\ reach [2; 1] c (sorted [2; 1])
             /\ forall c', reach [2; 1] c' (sorted [2; 1]) -> (c <= c')%nat).
Proof.
  assert (Hp : is_permutation [2; 1]) by (apply is_stack_valid_spec; reflexivity).
  split; [exact Hp | exact (ucs_astar_same_cost [2; 1] Hp)].
Defined.

(** C2: for every permutation [P] of [1..N], the node either search
    returns has a path that starts with [P], ends with [1..N], goes from
    each state to the next by one flip with some [k] in [[2, N]], and whose
    length less one is the returned cost. *)
Theorem returned_path_valid (P : list Z) :
  is_permutation P ->
  exists (fuel : nat) u su a sa,
    (forall fuel', (fuel <= fuel')%nat ->
       run_ucs fuel' P = Some (Ok (u, su))
       /\ run_astar fuel' P = Some (Ok (a, sa)))
    /\ valid_path P (path u) (backwards_cost u)
    /\ valid_path P (path a) (backwards_cost a).
Proof.
  intros Hp.
  destruct (run_ucs_returns P) as (u & su & Hu & Au & _).
  destruct (run_astar_returns P) as (a & sa & Ha & Aa & _).
  exists (S (length (permutations P))), u, su, a, sa.
  split; [intros fuel' Hfuel; split; [apply Hu | apply Ha]; exact Hfuel|].
  split; apply answer_valid_path; assumption.
Qed.

Lemma returned_path_valid_witness :
  is_permutation [2; 1]
  /\ exists (fuel : nat) u su a sa,
       (forall fuel', (fuel <= fuel')%nat ->
          run_ucs fuel' [2; 1] = Some (Ok (u, su))
          /\ run_astar fuel' [2; 1] = Some (Ok (a, sa)))
       /\ valid_path [2; 1] (path u) (backwards_cost u)
       /\ valid_path [2; 1] (path a) (backwards_cost a).
Proof.
  assert (Hp : is_permutation [2; 1]) by (apply is_stack_valid_spec; reflexivity).
  split; [exact Hp | exact (returned_path_valid [2; 1] Hp)].
Defined.

(** C7: for every permutation [P] of [1..N], both loops return a node
    after [N! + 1] passes at most. *)
Theorem searches_terminate (P : list Z) :
  is_permutation P ->
  exists fuel : nat,
    (fuel <= fact (length P) + 1)%nat
    /\ (exists u su, forall fuel', (fuel <= fuel')%nat ->
          run_ucs fuel' P = Some (Ok (u, su)))
    /\ (exists a sa, forall fuel', (fuel <= fuel')%nat ->
          run_astar fuel' P = Some (Ok (a, sa))).
Proof.
  intros _.
  destruct (run_ucs_returns P) as (u & su & Hu & _).
  destruct (run_astar_returns P) as (a & sa & Ha & _).
  exists (S (length (permutations P))).
  split; [rewrite permutations_length; lia|]. split; eauto.
Qed.

Lemma searches_terminate_witness :
  is_permutation [2; 1]
  /\ exists fuel : nat,
       (fuel <= fact (length [2; 1]) + 1)%nat
       /\ (exists u su, forall fuel', (fuel <= fuel')%nat ->
             run_ucs fuel' [2; 1] = Some (Ok (u, su)))
       /\ (exists a sa, forall fuel', (fuel <= fuel')%nat ->
             run_astar fuel' [2; 1] = Some (Ok (a, sa))).
Proof.
  assert (Hp : is_permutation [2; 1]) by (apply is_stack_valid_spec; reflexivity).
  split; [exact Hp | exact (searches_terminate [2; 1] Hp)].
Defined.

(** ** Two states in the middle of a run *)

(** The UCS run on [[1; 3; 2]], in its fifth pass: the node of
    [[3; 2; 1]] is closed, its flip by 2 is merged, and its flip by 3,
    the stack [[1; 2; 3]], is next; the frontier has a node of
    [[1; 2; 3]] that costs 3, as much as the candidate. *)
Definition equal_cost_current : UcsNode :=
  mkUcsNode [3; 2; 1] 2 [[1; 3; 2]; [2; 3; 1]; [3; 2; 1]].

Definition equal_cost_existing : UcsNode :=
  mkUcsNode [1; 2; 3] 3 [[1; 3; 2]; [3; 1; 2]; [2; 1; 3]; [1; 2; 3]].

Definition equal_cost_state : Ucs.t :=
  {| root := mkUcsNode [1; 3; 2] 0 [[1; 3; 2]];
     expanded := [equal_cost_existing];
     traversed :=
       [mkUcsNode [1; 3; 2] 0 [[1; 3; 2]];
        mkUcsNode [3; 1; 2] 1 [[1; 3; 2]; [3; 1; 2]];
        mkUcsNode [2; 3; 1] 1 [[1; 3; 2]; [2; 3; 1]];
        mkUcsNode [2; 1; 3] 2 [[1; 3; 2]; [3; 1; 2]; [2; 1; 3]];
        equal_cost_current];
     goal_stack := [1; 2; 3];
     nodes_expanded := 10 |}.

(** The same run at the head of its fifth pass. *)
Definition equal_cost_before : Ucs.t :=
  {| root := mkUcsNode [1; 3; 2] 0 [[1; 3; 2]];
     expanded := [equal_cost_current; equal_cost_existing];
     traversed :=
       [mkUcsNode [1; 3; 2] 0 [[1; 3; 2]];
        mkUcsNode [3; 1; 2] 1 [[1; 3; 2]; [3; 1; 2]];
        mkUcsNode [2; 3; 1] 1 [[1; 3; 2]; [2; 3; 1]];
        mkUcsNode [2; 1; 3] 2 [[1; 3; 2]; [3; 1; 2]; [2; 1; 3]]];
     goal_stack := [1; 2; 3];
     nodes_expanded := 9 |}.

Lemma equal_cost_before_visited :
  visits backwards_cost ucs_child (ucs_start [1; 3; 2]) AtWhile
    equal_cost_before.
Proof.
  apply (passes_visits _ _ _ 4 (ucs_start [1; 3; 2])); [apply visits_start|].
  vm_compute. reflexivity.
Qed.

Lemma equal_cost_state_visited :
  visits backwards_cost ucs_child (ucs_start [1; 3; 2])
    (InFor equal_cost_current [3]) equal_cost_state.
Proof.
  apply (visits_merge _ _ _ (set_nodes_expanded equal_cost_state 9)
           equal_cost_current 2 [3]);
    [|vm_compute; reflexivity].
  apply (visits_for _ _ _ equal_cost_before equal_cost_current
           (set_nodes_expanded equal_cost_state 9)
           equal_cost_before_visited); [vm_compute; reflexivity|].
  discriminate.
Qed.

(** The A* run on [[1; 3; 2]], in its fifth pass as well: the node of
    [[2; 1; 3]] is closed and its flip by 2, the goal stack, is merged; its
    flip by 3, the closed stack [[3; 1; 2]], is next.  The frontier has the
    node of the goal that the fourth pass put there. *)
Definition astar_fifth_current : AStarNode :=
  new_AStarNode [2; 1; 3] 2 [[1; 3; 2]; [3; 1; 2]; [2; 1; 3]] 1.

Definition astar_fifth_open : AStarNode :=
  new_AStarNode [1; 2; 3] 3 [[1; 3; 2]; [2; 3; 1]; [3; 2; 1]; [1; 2; 3]] 0.

Definition astar_fifth_state : Astar.t :=
  {| root := new_AStarNode [1; 3; 2] 0 [[1; 3; 2]] 1;
     expanded := [astar_fifth_open];
     traversed :=
       [new_AStarNode [1; 3; 2] 0 [[1; 3; 2]] 1;
        new_AStarNode [3; 1; 2] 1 [[1; 3; 2]; [3; 1; 2]] 1;
        new_AStarNode [2; 3; 1] 1 [[1; 3; 2]; [2; 3; 1]] 1;
        new_AStarNode [3; 2; 1] 2 [[1; 3; 2]; [2; 3; 1]; [3; 2; 1]] 0;
        astar_fifth_current];
     goal_stack := [1; 2; 3];
     nodes_expanded := 10 |}.

(** The same run at the head of its fifth pass. *)
Definition astar_fifth_before : Astar.t :=
  {| root := new_AStarNode [1; 3; 2] 0 [[1; 3; 2]] 1;
     expanded := [astar_fifth_current; astar_fifth_open];
     traversed :=
       [new_AStarNode [1; 3; 2] 0 [[1; 3; 2]] 1;
        new_AStarNode [3; 1; 2] 1 [[1; 3; 2]; [3; 1; 2]] 1;
        new_AStarNode [2; 3; 1] 1 [[1; 3; 2]; [2; 3; 1]] 1;
        new_AStarNode [3; 2; 1] 2 [[1; 3; 2]; [2; 3; 1]; [3; 2; 1]] 0];
     goal_stack := [1; 2; 3];
     nodes_expanded := 9 |}.

Lemma astar_fifth_before_visited :
  visits total_cost astar_child (astar_start [1; 3; 2]) AtWhile
    astar_fifth_before.
Proof.
  apply (passes_visits _ _ _ 4 (astar_start [1; 3; 2])); [apply visits_start|].
  vm_compute. reflexivity.
Qed.

Lemma astar_fifth_state_visited :
  visits total_cost astar_child (astar_start [1; 3; 2])
    (InFor astar_fifth_current [3]) astar_fifth_state.
Proof.
  apply (visits_merge _ _ _ (set_nodes_expanded astar_fifth_state 9)
           astar_fifth_current 2 [3]);
    [|vm_compute; reflexivity].
  apply (visits_for _ _ _ astar_fifth_before astar_fifth_current
           (set_nodes_expanded astar_fifth_state 9)
           astar_fifth_before_visited); [vm_compute; reflexivity|].
  discriminate.
Qed.

(** What C6 says of a state of a run: no two open nodes and no two closed
    nodes share a stack, no stack is open and closed at once, and a
    candidate whose stack is closed is dropped, whatever the node it comes
    from costs: the state only counts one more generated node. *)
Definition one_node_per_stack {N : Type} `{Node N}
    (expand : N -> Search N -> Z -> result (Search N)) (self : Search N)
    : Prop :=
  NoDup (stack <$> expanded self)
  /\ NoDup (stack <$> traversed self)
  /\ (forall s, s ∈ stack <$> traversed self -> s ∉ stack <$> expanded self)
  /\ (forall current_node i,
        flip (stack current_node) i ∈ stack <$> traversed self ->
        expand current_node self i
        = Ok (set_nodes_expanded self (nodes_expanded self + 1))).

Lemma core_one_node_per_stack {N : Type} `{Node N} key child h P
    (self : Search N) :
  (forall n s, stack (child n s) = s) ->
  core key h P self -> one_node_per_stack (merge key child) self.
Proof.
  intros Hchild Hc. pose proof (core_nodup _ _ _ _ Hc) as Hnd.
  pose proof Hnd as Hnd'. unfold nodes in Hnd'. rewrite fmap_app in Hnd'.
  apply NoDup_app in Hnd' as (He & Hdis & Ht).
  split; [exact He|]. split; [exact Ht|]. split.
  - intros s Hs Hs'. exact (Hdis s Hs' Hs).
  - intros cur i Hin. apply merge_closed; assumption.
Qed.

(** C6: in every state a run of either search goes through, the frontier
    holds one node per stack at most, no stack is closed twice or open and
    closed at once, and a candidate whose stack is closed is dropped even
    when it is cheaper. *)
Theorem one_node_per_state (P : list Z) pu (su : Ucs.t) pa (sa : Astar.t) :
  visits backwards_cost ucs_child (ucs_start P) pu su ->
  visits total_cost astar_child (astar_start P) pa sa ->
  one_node_per_stack Ucs.expand su /\ one_node_per_stack Astar.expand sa.
Proof.
  intros Hu Ha. split.
  - apply (core_one_node_per_stack backwards_cost ucs_child no_heuristic P);
      [apply ucs_child_stack|].
    apply (good_core _ _ _ pu).
    apply (visits_good backwards_cost ucs_child no_heuristic P
             ucs_child_stack ucs_child_cost ucs_child_path ucs_child_key
             no_heuristic_flip (ucs_start P)); [apply ucs_start_good | exact Hu].
  - apply (core_one_node_per_stack total_cost astar_child
             Astar.calculate_heuristic_value P); [apply astar_child_stack|].
    apply (good_core _ _ _ pa).
    apply (visits_good total_cost astar_child Astar.calculate_heuristic_value P
             astar_child_stack astar_child_cost astar_child_path
             astar_child_key astar_h_flip (astar_start P));
      [apply astar_start_good | exact Ha].
Qed.

(** In the fifth pass of the two runs on [[1; 3; 2]] five stacks are
    closed and one is open.  The flip by 2 of [[3; 2; 1]] and the flip by 3
    of [[2; 1; 3]] are closed stacks, and their candidates are dropped; so
    is the candidate of [[2; 1; 3]] that a node of cost 0 would give, which
    costs 1 where the closed node costs 2. *)
Lemma one_node_per_state_witness :
  one_node_per_stack Ucs.expand equal_cost_state
  /\ one_node_per_stack Astar.expand astar_fifth_state
  /\ Ucs.expand equal_cost_current equal_cost_state 2
     = Ok (set_nodes_expanded equal_cost_state 11)
  /\ Astar.expand astar_fifth_current astar_fifth_state 3
     = Ok (set_nodes_expanded astar_fifth_state 11)
  /\ Ucs.expand (mkUcsNode [1; 2; 3] 0 [[1; 2; 3]]) equal_cost_state 2
     = Ok (set_nodes_expanded equal_cost_state 11)
  /\ Astar.expand (new_AStarNode [1; 2; 3] 0 [[1; 2; 3]] 0) astar_fifth_state 2
     = Ok (set_nodes_expanded astar_fifth_state 11).
Proof.
  destruct (one_node_per_state [1; 3; 2]
              (InFor equal_cost_current [3]) equal_cost_state
              (InFor astar_fifth_current [3]) astar_fifth_state
              equal_cost_state_visited astar_fifth_state_visited)
    as [Hu Ha].
  split; [exact Hu|]. split; [exact Ha|].
  destruct Hu as (_ & _ & _ & Hu), Ha as (_ & _ & _ & Ha).
  split; [|split; [|split]].
  - apply (Hu equal_cost_current 2). vm_compute. repeat constructor.
  - apply (Ha astar_fifth_current 3). vm_compute. repeat constructor.
  - apply (Hu (mkUcsNode [1; 2; 3] 0 [[1; 2; 3]]) 2).
    vm_compute. repeat constructor.
  - apply (Ha (new_AStarNode [1; 2; 3] 0 [[1; 2; 3]] 0) 2).
    vm_compute. repeat constructor.
Defined.

(** C9: on [[1]] both searches return cost 0, path [[[1]]] and a count of
    one generated node; on [[2; 1]] both return cost 1.  One pass of the
    loop is enough for the first, two for the second. *)
Theorem boundary_runs (n : nat) :
  (exists u su a sa,
      run_ucs (S n) [1] = Some (Ok (u, su))
      /\ run_astar (S n) [1] = Some (Ok (a, sa))
      /\ backwards_cost u = 0 /\ path u = [[1]] /\ nodes_expanded su = 1
      /\ backwards_cost a = 0 /\ path a = [[1]] /\ nodes_expanded sa = 1)
  /\ (exists u su a sa,
      run_ucs (S (S n)) [2; 1] = Some (Ok (u, su))
      /\ run_astar (S (S n)) [2; 1] = Some (Ok (a, sa))
      /\ backwards_cost u = 1 /\ backwards_cost a = 1).
Proof.
  split.
  - do 4 eexists. split; [reflexivity|]. split; [reflexivity|].
    repeat split.
  - do 4 eexists. split; [reflexivity|]. split; [reflexivity|].
    repeat split.
Qed.

(** C10: a flip is its own inverse, [flip (flip s k) k = s] for
    [1 <= k <= len(s)], and leaves the elements of the stack what they
    were. *)
Theorem flip_involution (s : list Z) (k : Z) :
  1 <= k <= Z.of_nat (length s) ->
  flip (flip s k) k = s /\ flip s k ≡ₚ s.
Proof.
  intros Hk. split; [apply flip_flip; lia | apply flip_Permutation].
Qed.

Lemma flip_involution_witness :
  1 <= 2 <= Z.of_nat (length [3; 1; 2])
  /\ flip (flip [3; 1; 2] 2) 2 = [3; 1; 2] /\ flip [3; 1; 2] 2 ≡ₚ [3; 1; 2].
Proof.
  assert (Hk : 1 <= 2 <= Z.of_nat (length [3; 1; 2])) by (simpl; lia).
  split; [exact Hk | exact (flip_involution [3; 1; 2] 2 Hk)].
Defined.

(** C5 as it is written fails: over the indices of [[0, N-2)] the stack
    [[1; 3; 2; 4]] has one gap, and the code returns two. *)
Lemma heuristic_short_range_fails :
  Astar.calculate_heuristic_value [1; 3; 2; 4]
  <> count_gaps [1; 3; 2; 4] (length [1; 3; 2; 4] - 2).
Proof. vm_compute. discriminate. Qed.

(** C5, amended: [calculate_heuristic_value s] is the number of indices [i]
    in [[0, N-1)], every pair of neighbours, with [|s[i] - s[i+1]|] other
    than one; it is 0 on [[1; 2; 3; 4]] and on [[4; 3; 2; 1]] and 2 on
    [[1; 3; 2; 4]]. *)
Theorem heuristic_counts_gaps :
  (forall s : list Z,
     Astar.calculate_heuristic_value s = count_gaps s (length s - 1))
  /\ Astar.calculate_heuristic_value [1; 2; 3; 4] = 0
  /\ Astar.calculate_heuristic_value [4; 3; 2; 1] = 0
  /\ Astar.calculate_heuristic_value [1; 3; 2; 4] = 2.
Proof.
  split; [|repeat split].
  intros s. rewrite calculate_heuristic_value_gaps. apply gaps_count_gaps.
Qed.

(** C3 as it is written fails: [[1; 1]] is no permutation of [1..2], and
    both searches run on it and return a node. *)
Lemma core_runs_on_duplicates :
  ~ is_permutation [1; 1]
  /\ (exists u su, run_ucs 1 [1; 1] = Some (Ok (u, su)))
  /\ (exists a sa, run_astar 1 [1; 1] = Some (Ok (a, sa))).
Proof.
  split; [intros Hp%is_stack_valid_spec; discriminate Hp|].
  split; do 2 eexists; reflexivity.
Qed.

(** C3, amended: a list of integers that is no permutation of [1..N] is
    turned down by [is_stack_valid], outside the core; the core makes no
    check of its own and raises nothing: each search, run on such a list,
    returns the node of its sorted arrangement. *)
Theorem no_check_in_core (P : list Z) :
  ~ is_permutation P ->
  is_stack_valid P = false
  /\ (exists (fuel : nat) u su,
        (forall fuel', (fuel <= fuel')%nat ->
           run_ucs fuel' P = Some (Ok (u, su)))
        /\ stack u = sorted P)
  /\ (exists (fuel : nat) a sa,
        (forall fuel', (fuel <= fuel')%nat ->
           run_astar fuel' P = Some (Ok (a, sa)))
        /\ stack a = sorted P).
Proof.
  intros Hp. split.
  - destruct (is_stack_valid P) eqn:E; [|reflexivity].
    apply is_stack_valid_spec in E. contradiction.
  - destruct (run_ucs_returns P) as (u & su & Hu & Au & _).
    destruct (run_astar_returns P) as (a & sa & Ha & Aa & _).
    split; eexists _, _, _; (split; [eassumption|]); apply answer_stack;
      assumption.
Qed.

Lemma no_check_in_core_witness :
  ~ is_permutation [1; 1]
  /\ is_stack_valid [1; 1] = false
  /\ (exists (fuel : nat) u su,
        (forall fuel', (fuel <= fuel')%nat ->
           run_ucs fuel' [1; 1] = Some (Ok (u, su)))
        /\ stack u = sorted [1; 1])
  /\ (exists (fuel : nat) a sa,
        (forall fuel', (fuel <= fuel')%nat ->
           run_astar fuel' [1; 1] = Some (Ok (a, sa)))
        /\ stack a = sorted [1; 1]).
Proof.
  assert (Hp : ~ is_permutation [1; 1]).
  { intros Hp%is_stack_valid_spec. discriminate Hp. }
  split; [exact Hp | exact (no_check_in_core [1; 1] Hp)].
Defined.

(** C4 as it is written fails: in a state of the UCS run on [[1; 3; 2]]
    the frontier node of the candidate's stack costs as much as the
    candidate, and the merge keeps it and drops the candidate. *)
Lemma equal_cost_not_replaced :
  let candidate :=
    ucs_child equal_cost_current (flip (stack equal_cost_current) 3) in
  visits backwards_cost ucs_child (ucs_start [1; 3; 2])
    (InFor equal_cost_current [3]) equal_cost_state
  /\ equal_cost_existing ∈ expanded equal_cost_state
  /\ stack equal_cost_existing = stack candidate
  /\ backwards_cost equal_cost_existing >= backwards_cost candidate
  /\ exists self',
       Ucs.expand equal_cost_current equal_cost_state 3 = Ok self'
       /\ expanded self' = [equal_cost_existing]
       /\ candidate ∉ expanded self'.
Proof.
  split; [exact equal_cost_state_visited|].
  split; [apply list_elem_of_singleton; reflexivity|].
  split; [reflexivity|]. split; [simpl; lia|].
  eexists. split; [reflexivity|]. split; [reflexivity|].
  intros Hin. apply list_elem_of_singleton in Hin. discriminate Hin.
Qed.

(** C4, amended: when the frontier, one node per stack, has a node of the
    candidate's stack, the UCS merge puts the candidate in its place only
    if the candidate costs strictly less; when the node there costs less or
    as much, the candidate is dropped and the frontier stays as it is. *)
Theorem replaced_only_if_cheaper (current_node : UcsNode) (self : Ucs.t)
    (i : Z) (old_node : UcsNode) :
  NoDup (stack <$> expanded self) ->
  old_node ∈ expanded self ->
  stack old_node = flip (stack current_node) i ->
  let new_node := ucs_child current_node (flip (stack current_node) i) in
  let self1 := set_nodes_expanded self (nodes_expanded self + 1) in
  (backwards_cost new_node < backwards_cost old_node ->
     exists e, list_remove old_node (expanded self) = Ok e
               /\ expanded self ≡ₚ old_node :: e
               /\ Ucs.expand current_node self i
                  = Ok (set_expanded self1 (e ++ [new_node])))
  /\ (backwards_cost old_node <= backwards_cost new_node ->
      Ucs.expand current_node self i = Ok self1).
Proof.
  intros Hnd Hold Hs.
  exact (merge_open backwards_cost ucs_child ucs_child_stack
           current_node self i old_node Hnd Hold Hs).
Qed.

Lemma replaced_only_if_cheaper_witness :
  NoDup (stack <$> expanded equal_cost_state)
  /\ equal_cost_existing ∈ expanded equal_cost_state
  /\ stack equal_cost_existing = flip (stack equal_cost_current) 3
  /\ Ucs.expand equal_cost_current equal_cost_state 3
     = Ok (set_nodes_expanded equal_cost_state 11).
Proof.
  assert (Hnd : NoDup (stack <$> expanded equal_cost_state))
    by apply NoDup_singleton.
  assert (Hin : equal_cost_existing ∈ expanded equal_cost_state)
    by (apply list_elem_of_singleton; reflexivity).
  assert (Hs : stack equal_cost_existing = flip (stack equal_cost_current) 3)
    by reflexivity.
  split; [exact Hnd|]. split; [exact Hin|]. split; [exact Hs|].
  apply (replaced_only_if_cheaper equal_cost_current equal_cost_state 3
           equal_cost_existing Hnd Hin Hs).
  simpl. lia.
Defined.

(** * More of the code *)

(** ** Flips at and beyond the ends of the stack *)

Lemma slice_bound_flip s k :
  slice_bound (length (flip s k)) k = slice_bound (length s) k.
Proof. rewrite flip_length. reflexivity. Qed.

(** X1: flipping twice with the same [n] gives the stack back for every
    integer [n], negative or beyond the length of the stack too, and a flip
    keeps the length. *)
Theorem flip_twice_any (s : list Z) (n : Z) :
  flip (flip s n) n = s /\ length (flip s n) = length s.
Proof.
  split; [|apply flip_length].
  unfold flip at 1. rewrite slice_bound_flip. unfold flip.
  set (m := slice_bound (length s) n).
  destruct (decide (m <= length s)%nat) as [Hle|Hgt].
  - assert (Hm : length (reverse (take m s)) = m).
    { rewrite length_reverse, length_take. lia. }
    rewrite take_app_length' by (symmetry; exact Hm).
    rewrite drop_app_length' by (symmetry; exact Hm).
    rewrite reverse_involutive. apply take_drop.
  - rewrite (take_ge s m) by lia. rewrite (drop_ge s m) by lia.
    rewrite app_nil_r.
    rewrite take_ge by (rewrite length_reverse; lia).
    rewrite drop_ge by (rewrite length_reverse; lia).
    rewrite reverse_involutive. apply app_nil_r.
Qed.

(** X2: a flip of no or one pancake leaves the stack as it is, a flip of
    [len(stack)] pancakes or more turns the whole stack over, and a negative
    [n] counts from the bottom: it flips [len(stack) + n] pancakes, or none
    when that is negative. *)
Theorem flip_edge_cases (s : list Z) (n : Z) :
  (0 <= n <= 1 -> flip s n = s)
  /\ (Z.of_nat (length s) <= n -> flip s n = reverse s)
  /\ (- Z.of_nat (length s) <= n < 0 ->
      flip s n = flip s (Z.of_nat (length s) + n))
  /\ (n <= - Z.of_nat (length s) -> flip s n = s).
Proof.
  split; [|split; [|split]]; intros Hn.
  - rewrite flip_nonneg by lia.
    destruct (decide (n = 0)) as [->|Hn1].
    + reflexivity.
    + replace (Z.to_nat n) with 1%nat by lia.
      destruct s as [|a s]; reflexivity.
  - rewrite flip_nonneg by lia.
    rewrite take_ge by lia. rewrite drop_ge by lia. apply app_nil_r.
  - rewrite (flip_nonneg s (Z.of_nat (length s) + n)) by lia.
    unfold flip, slice_bound. destruct (Z.ltb_spec n 0); [|lia].
    rewrite Z.max_r by lia. reflexivity.
  - unfold flip, slice_bound.
    destruct (Z.ltb_spec n 0) as [_|Hge].
    + rewrite Z.max_l by lia. reflexivity.
    + assert (length s = 0%nat) as ->%length_zero_iff_nil by lia.
      rewrite take_nil, drop_nil. reflexivity.
Qed.

Lemma flip_edge_cases_witness :
  flip [3; 1; 2] 1 = [3; 1; 2] /\ flip [3; 1; 2] 5 = [2; 1; 3]
  /\ flip [3; 1; 2] (-1) = [1; 3; 2] /\ flip [3; 1; 2] (-7) = [3; 1; 2].
Proof.
  pose proof (flip_edge_cases [3; 1; 2] 1) as (H1 & _).
  pose proof (flip_edge_cases [3; 1; 2] 5) as (_ & H5 & _).
  pose proof (flip_edge_cases [3; 1; 2] (-1)) as (_ & _ & Hm1 & _).
  pose proof (flip_edge_cases [3; 1; 2] (-7)) as (_ & _ & _ & Hm7).
  split; [apply H1; lia|]. split; [apply H5; simpl; lia|].
  split; [rewrite Hm1 by (simpl; lia); reflexivity | apply Hm7; simpl; lia].
Defined.

(** ** The heuristic *)

Lemma gaps_upper s : gaps s <= Z.of_nat (length s - 1).
Proof.
  induction s as [|a s IH]; [reflexivity|].
  destruct s as [|b s]; [reflexivity|].
  rewrite gaps_cons2. remember (gaps (b :: s)) as g. cbn [length] in *.
  destruct (is_gap a b); lia.
Qed.

Lemma gaps_seqZ m n : gaps (seqZ m n) = 0.
Proof.
  remember (Z.to_nat n) as k eqn:Ek. revert m n Ek.
  induction k as [|k IH]; intros m n Ek.
  - rewrite seqZ_nil by lia. reflexivity.
  - rewrite seqZ_cons by lia.
    destruct (decide (Z.pred n <= 0)) as [Hle|Hgt].
    + rewrite seqZ_nil by exact Hle. reflexivity.
    + pose proof (IH (Z.succ m) (Z.pred n) ltac:(lia)) as IH'.
      rewrite seqZ_cons in IH' |- * by lia.
      rewrite gaps_cons2, IH'. unfold is_gap.
      destruct (Z.eqb_spec (Z.abs (m - Z.succ m)) 1); [reflexivity | lia].
Qed.

(** X3: the heuristic value of a stack of [N] pancakes lies between 0 and
    [N - 1] (0 for the empty stack), and turning the whole stack over does
    not change it. *)
Theorem heuristic_bounds (s : list Z) :
  0 <= Astar.calculate_heuristic_value s <= Z.of_nat (length s - 1)
  /\ Astar.calculate_heuristic_value (reverse s)
     = Astar.calculate_heuristic_value s.
Proof.
  rewrite !calculate_heuristic_value_gaps.
  split; [split; [apply gaps_nonneg | apply gaps_upper] | apply gaps_reverse].
Qed.

(** X4: the heuristic is consistent: one flip, with any [n], moves the
    heuristic value by one at most. *)
Theorem heuristic_consistent (s : list Z) (n : Z) :
  Z.abs (Astar.calculate_heuristic_value (flip s n)
         - Astar.calculate_heuristic_value s) <= 1.
Proof.
  rewrite !calculate_heuristic_value_gaps. apply gaps_flip.
Qed.

(** X5: the heuristic is admissible: on a permutation of [1..N] it is 0 at
    the goal and never more than the number of flips of any way to sort the
    stack. *)
Theorem heuristic_admissible (P : list Z) (c : nat) :
  is_permutation P -> reach P c (sorted P) ->
  Astar.calculate_heuristic_value (sorted P) = 0
  /\ Astar.calculate_heuristic_value P <= Z.of_nat c.
Proof.
  intros Hp Hr. rewrite !calculate_heuristic_value_gaps.
  assert (H0 : gaps (sorted P) = 0).
  { rewrite (sorted_permutation P Hp). apply gaps_seqZ. }
  split; [exact H0|]. pose proof (reach_gaps P c _ Hr). lia.
Qed.

Lemma heuristic_admissible_witness :
  is_permutation [2; 1] /\ reach [2; 1] 1 (sorted [2; 1])
  /\ Astar.calculate_heuristic_value (sorted [2; 1]) = 0
  /\ Astar.calculate_heuristic_value [2; 1] <= 1.
Proof.
  assert (Hp : is_permutation [2; 1]) by (apply is_stack_valid_spec; reflexivity).
  assert (Hr : reach [2; 1] 1 (sorted [2; 1])).
  { apply (reach_flip [2; 1] 0 [2; 1] 2); [apply reach_here | simpl; lia]. }
  split; [exact Hp|]. split; [exact Hr|].
  exact (heuristic_admissible [2; 1] 1 Hp Hr).
Defined.

Lemma gaps_zero_monotone (s : list Z) :
  gaps s = 0 -> NoDup s ->
  Sorted Z.le s \/ Sorted (fun x y => y <= x) s.
Proof.
  induction s as [|a [|b l] IH]; intros Hg Hnd.
  - left. constructor.
  - left. repeat constructor.
  - rewrite gaps_cons2 in Hg. pose proof (gaps_nonneg (b :: l)) as Hpos.
    unfold is_gap in Hg.
    destruct (Z.eqb_spec (Z.abs (a - b)) 1) as [Hab|]; cbn [negb] in Hg; [|lia].
    apply NoDup_cons in Hnd as [Ha Hnd].
    assert (Hab' : a <> b).
    { intros ->. apply Ha, elem_of_cons. auto. }
    destruct (IH ltac:(lia) Hnd) as [Hup|Hdown].
    + destruct (decide (a <= b)) as [Hle|Hgt].
      * left. constructor; [exact Hup | constructor; exact Hle].
      * destruct l as [|c l].
        -- right. repeat constructor. lia.
        -- exfalso. rewrite gaps_cons2 in Hg. unfold is_gap in Hg.
           pose proof (gaps_nonneg (c :: l)).
           destruct (Z.eqb_spec (Z.abs (b - c)) 1) as [Hbc|]; cbn [negb] in Hg; [|lia].
           apply Sorted_inv in Hup as [_ Hbc'%HdRel_inv].
           apply Ha. replace a with c by lia.
           apply elem_of_cons. right. apply elem_of_cons. auto.
    + destruct (decide (b <= a)) as [Hle|Hgt].
      * right. constructor; [exact Hdown | constructor; exact Hle].
      * destruct l as [|c l].
        -- left. repeat constructor. lia.
        -- exfalso. rewrite gaps_cons2 in Hg. unfold is_gap in Hg.
           pose proof (gaps_nonneg (c :: l)).
           destruct (Z.eqb_spec (Z.abs (b - c)) 1) as [Hbc|]; cbn [negb] in Hg; [|lia].
           apply Sorted_inv in Hdown as [_ Hbc'%HdRel_inv].
           apply Ha. replace a with c by lia.
           apply elem_of_cons. right. apply elem_of_cons. auto.
Qed.

Lemma Sorted_le_sorted (l : list Z) : Sorted Z.le l -> sorted l = l.
Proof.
  intros Hl. apply (Sorted_unique Z.le).
  - apply Sorted_merge_sort. apply _.
  - exact Hl.
  - apply sorted_Permutation.
Qed.

Lemma Sorted_ge_reverse (l : list Z) :
  Sorted (fun x y => y <= x) l -> Sorted Z.le (reverse l).
Proof. intros Hl. exact (Sorted_reverse (fun x y => y <= x) l Hl). Qed.

Lemma sorted_reverse (l : list Z) : sorted (reverse l) = sorted l.
Proof.
  apply (Sorted_unique Z.le).
  - apply Sorted_merge_sort. apply _.
  - apply Sorted_merge_sort. apply _.
  - rewrite !sorted_Permutation. apply reverse_Permutation.
Qed.

(** X6: on a permutation of [1..N] the heuristic is 0 on two stacks only:
    the goal and the goal turned over.  A heuristic value of 0 does not
    say that the stack is sorted. *)
Theorem heuristic_zero (P : list Z) :
  is_permutation P ->
  Astar.calculate_heuristic_value P = 0
  <-> P = sorted P \/ P = reverse (sorted P).
Proof.
  intros Hp. rewrite calculate_heuristic_value_gaps.
  assert (H0 : gaps (sorted P) = 0).
  { rewrite (sorted_permutation P Hp). apply gaps_seqZ. }
  split.
  - intros Hg.
    assert (Hnd : NoDup P).
    { unfold is_permutation in Hp. rewrite Hp. apply NoDup_seqZ. }
    destruct (gaps_zero_monotone P Hg Hnd) as [Hup|Hdown].
    + left. symmetry. apply Sorted_le_sorted, Hup.
    + right. apply Sorted_ge_reverse, Sorted_le_sorted in Hdown.
      rewrite sorted_reverse in Hdown. rewrite Hdown.
      symmetry. apply reverse_involutive.
  - intros [E|E]; rewrite E; [|rewrite gaps_reverse]; exact H0.
Qed.

Lemma heuristic_zero_witness :
  is_permutation [3; 2; 1]
  /\ (Astar.calculate_heuristic_value [3; 2; 1] = 0
      <-> [3; 2; 1] = sorted [3; 2; 1]
          \/ [3; 2; 1] = reverse (sorted [3; 2; 1])).
Proof.
  assert (Hp : is_permutation [3; 2; 1])
    by (apply is_stack_valid_spec; reflexivity).
  split; [exact Hp | exact (heuristic_zero [3; 2; 1] Hp)].
Defined.

(** ** Looking a node up by its stack *)

(** X7: [get_node_by_stack] finds nothing (the [0] of the source) exactly
    when no node of the list has the stack; the node it finds has the stack
    and is the first of the list that has it. *)
Theorem get_node_by_stack_spec {N : Type} `{Node N} (nodes : list N)
    (s : list Z) :
  (get_node_by_stack nodes s = None <-> s ∉ stack <$> nodes)
  /\ (forall node, get_node_by_stack nodes s = Some node ->
        exists before after,
          nodes = before ++ node :: after /\ stack node = s
          /\ s ∉ stack <$> before).
Proof.
  induction nodes as [|e l [IHn IHs]]; cbn [get_node_by_stack].
  - split; [split; [intros _; apply not_elem_of_nil | reflexivity]|].
    intros node Hn. discriminate Hn.
  - rewrite fmap_cons. destruct (decide (stack e = s)) as [E|NE].
    + rewrite bool_decide_eq_true_2 by exact E. split.
      * split; [discriminate|]. intros Hs. exfalso. apply Hs.
        apply elem_of_cons. auto.
      * intros node [= <-]. exists [], l.
        split; [reflexivity|]. split; [exact E | apply not_elem_of_nil].
    + rewrite bool_decide_eq_false_2 by exact NE. split.
      * rewrite IHn, not_elem_of_cons. split; [auto | tauto].
      * intros node Hn. destruct (IHs node Hn) as (l1 & l2 & -> & Hs & Hl1).
        exists (e :: l1), l2. split; [reflexivity|]. split; [exact Hs|].
        rewrite fmap_cons, not_elem_of_cons. auto.
Qed.

(** ** The lowest node of the frontier *)

(** [x] is the first of the elements of [l] with the lowest key. *)
Definition first_lowest {A : Type} (key : A -> Z) (l : list A) (x : A)
    : Prop :=
  exists before after,
    l = before ++ x :: after
    /\ (forall y, y ∈ before -> key x < key y)
    /\ (forall y, y ∈ after -> key x <= key y).

(** What [get_lowest_cost_node] does with the key [key]: on an empty
    frontier it raises [IndexError]; else it returns the first node of
    lowest key and leaves the frontier sorted by key, the same nodes in
    another order, with that node at its head and the other attributes of
    the search as they were. *)
Definition lowest_node_spec {N : Type} (key : N -> Z) (self : Search N)
    (r : result (N * Search N)) : Prop :=
  match r with
  | Raise e => e = IndexError /\ expanded self = []
  | Ok (node, self') =>
      first_lowest key (expanded self) node
      /\ head (expanded self') = Some node
      /\ expanded self' ≡ₚ expanded self
      /\ Sorted (fun a b => key a <= key b) (expanded self')
      /\ set_expanded self' (expanded self) = self
  end.

Section StableSortMore.
Context {A : Type} (key : A -> Z).

Lemma insert_by_Sorted x l :
  Sorted (fun a b => key a <= key b) l ->
  Sorted (fun a b => key a <= key b) (insert_by key x l).
Proof.
  induction l as [|y l IH]; intros Hl; cbn [insert_by].
  - repeat constructor.
  - destruct (Z.leb_spec (key x) (key y)) as [Hxy|Hxy].
    + constructor; [exact Hl | constructor; exact Hxy].
    + apply Sorted_inv in Hl as [Hl Hhd]. constructor; [apply IH, Hl|].
      destruct l as [|z l]; cbn [insert_by].
      * constructor. lia.
      * destruct (Z.leb_spec (key x) (key z)); constructor; [lia|].
        apply HdRel_inv in Hhd. exact Hhd.
Qed.

Lemma sort_by_Sorted l : Sorted (fun a b => key a <= key b) (sort_by key l).
Proof.
  induction l as [|x l IH]; cbn [sort_by]; [constructor|].
  apply insert_by_Sorted, IH.
Qed.

Lemma insert_by_head x l :
  head (insert_by key x l)
  = match head l with
    | Some y => if key x <=? key y then Some x else Some y
    | None => Some x
    end.
Proof.
  destruct l as [|y l]; cbn [insert_by head]; [reflexivity|].
  destruct (key x <=? key y); reflexivity.
Qed.

Lemma sort_by_first_lowest l x :
  head (sort_by key l) = Some x -> first_lowest key l x.
Proof.
  revert x. induction l as [|a l IH]; intros x Hx; [discriminate Hx|].
  cbn [sort_by] in Hx. rewrite insert_by_head in Hx.
  destruct (head (sort_by key l)) as [y|] eqn:Hy.
  - destruct (IH y eq_refl) as (l1 & l2 & -> & Hl1 & Hl2).
    destruct (Z.leb_spec (key a) (key y)) as [Hay|Hay]; injection Hx as <-.
    + exists [], (l1 ++ y :: l2). split; [reflexivity|].
      split; [intros z Hz; apply elem_of_nil in Hz; contradiction|].
      intros z Hz. rewrite elem_of_app, elem_of_cons in Hz.
      destruct Hz as [Hz|[->|Hz]]; [specialize (Hl1 z Hz) | | specialize (Hl2 z Hz)];
        lia.
    + exists (a :: l1), l2. split; [reflexivity|]. split; [|exact Hl2].
      intros z Hz. apply elem_of_cons in Hz as [->|Hz]; [lia | apply Hl1, Hz].
  - injection Hx as <-.
    assert (sort_by key l = []) as ->%sort_by_nil.
    { destruct (sort_by key l); [reflexivity | discriminate Hy]. }
    exists [], []. split; [reflexivity|].
    split; intros z Hz; apply elem_of_nil in Hz; contradiction.
Qed.
End StableSortMore.

Lemma lowest_spec {N : Type} `{Node N} (key : N -> Z) (self : Search N) :
  lowest_node_spec key self (lowest key self).
Proof.
  unfold lowest. destruct self as [r e t g c]. cbn [set_expanded expanded].
  destruct (sort_by key e) as [|node rest] eqn:E; unfold lowest_node_spec.
  - split; [reflexivity|]. cbn [expanded]. apply (sort_by_nil key), E.
  - cbn [expanded set_expanded root traversed goal_stack nodes_expanded].
    split; [apply sort_by_first_lowest; rewrite E; reflexivity|].
    split; [reflexivity|].
    split; [rewrite <- E; apply sort_by_Permutation|].
    split; [rewrite <- E; apply sort_by_Sorted | reflexivity].
Qed.

(** X8: [get_lowest_cost_node], of [Ucs] by [backwards_cost] and of
    [Astar] by [total_cost]: [IndexError] on an empty frontier, and else the
    first node of lowest cost, with the frontier left sorted by cost. *)
Theorem get_lowest_cost_node_spec :
  (forall self : Ucs.t,
     lowest_node_spec backwards_cost self (Ucs.get_lowest_cost_node self))
  /\ (forall self : Astar.t,
     lowest_node_spec total_cost self (Astar.get_lowest_cost_node self)).
Proof.
  split; intros self.
  - exact (lowest_spec backwards_cost self).
  - exact (lowest_spec total_cost self).
Qed.

(** ** The validator, once more *)

(** X9: [is_stack_valid] accepts the lists without duplicates whose values
    all lie in [1..N], and no other: it looks for duplicates and for the
    numbers [1..N], and so turns down a value below 1 or above [N] too. *)
Theorem is_stack_valid_range (starting_stack : list Z) :
  is_stack_valid starting_stack = true
  <-> NoDup starting_stack
      /\ forall x, x ∈ starting_stack ->
           1 <= x <= Z.of_nat (length starting_stack).
Proof.
  rewrite is_stack_valid_spec. unfold is_permutation.
  set (r := range 1 (Z.of_nat (length starting_stack) + 1)).
  assert (Hr : forall x, x ∈ r <-> 1 <= x <= Z.of_nat (length starting_stack)).
  { intros x. unfold r. rewrite range_elem. lia. }
  split.
  - intros Hp. split; [rewrite Hp; apply NoDup_seqZ|].
    intros x Hx. apply Hr. rewrite <- Hp. exact Hx.
  - intros [Hnd Hall]. apply submseteq_length_Permutation.
    + apply NoDup_submseteq; [exact Hnd|]. intros x Hx. apply Hr, Hall, Hx.
    + unfold r. rewrite range_length. lia.
Qed.

(** ** One step of a run, taken apart *)

Section StepFacts.
Context {N : Type} `{Node N}.
Variable key : N -> Z.
Variable child : N -> list Z -> N.

Lemma get_node_by_stack_Some (l : list N) (s : list Z) (n : N) :
  get_node_by_stack l s = Some n ->
  exists l1 l2, l = l1 ++ n :: l2 /\ stack n = s.
Proof.
  induction l as [|a l IH]; intros E; cbn [get_node_by_stack] in E.
  - discriminate E.
  - destruct (decide (stack a = s)) as [Ea|NE].
    + rewrite bool_decide_eq_true_2 in E by exact Ea. injection E as <-.
      exists [], l. auto.
    + rewrite bool_decide_eq_false_2 in E by exact NE.
      destruct (IH E) as (l1 & l2 & -> & Hs). exists (a :: l1), l2. auto.
Qed.

Lemma list_remove_sub (x : N) (l e : list N) :
  list_remove x l = Ok e -> forall y, y ∈ e -> y ∈ l.
Proof.
  revert e. induction l as [|a l IH]; intros e E y Hy; cbn [list_remove] in E.
  - discriminate E.
  - destruct (node_eq a x).
    + injection E as <-. apply elem_of_cons. auto.
    + destruct (list_remove x l) as [e'|]; cbn [mbind result_bind] in E;
        [|discriminate E].
      injection E as <-. apply elem_of_cons in Hy as [->|Hy].
      * apply elem_of_cons. auto.
      * apply elem_of_cons. right. exact (IH e' eq_refl y Hy).
Qed.

Lemma close_inv self cur self' :
  close key self = Ok (cur, self') ->
  exists rest,
    sort_by key (expanded self) = cur :: rest
    /\ self' = closed_state self cur rest.
Proof.
  intros E. destruct (sort_by key (expanded self)) as [|cur' rest] eqn:Es.
  - unfold close, lowest in E. cbn [set_expanded expanded] in E.
    rewrite Es in E. discriminate E.
  - rewrite (close_sorted key self cur' rest Es) in E. injection E as <- <-.
    exists rest. auto.
Qed.

Lemma merge_inv cur self i self' :
  merge key child cur self i = Ok self' ->
  let new_node := child cur (flip (stack cur) i) in
  root self' = root self /\ traversed self' = traversed self
  /\ goal_stack self' = goal_stack self
  /\ nodes_expanded self' = nodes_expanded self + 1
  /\ (expanded self' = expanded self
      \/ expanded self' = expanded self ++ [new_node]
      \/ exists old e,
           old ∈ expanded self /\ stack old = stack new_node
           /\ key new_node < key old
           /\ list_remove old (expanded self) = Ok e
           /\ expanded self' = e ++ [new_node]).
Proof.
  intros E new_node. unfold merge in E. fold new_node in E.
  destruct self as [r e t g c].
  cbn [expanded traversed set_nodes_expanded set_expanded root goal_stack
       nodes_expanded] in *.
  destruct (node_in new_node e) eqn:Hexp; simpl negb in E; simpl andb in E;
    cbv iota in E.
  - destruct (get_node_by_stack e (stack new_node)) as [old|] eqn:Hold;
      [|discriminate E].
    destruct (get_node_by_stack_Some e (stack new_node) old Hold)
      as (l1 & l2 & El & Hs).
    destruct (Z.ltb_spec (key new_node) (key old)) as [Hlt|Hge].
    + destruct (list_remove old e) as [e'|] eqn:Hrem;
        cbn [mbind result_bind] in E; [|discriminate E].
      injection E as <-. cbn. repeat split. right. right.
      exists old, e'. split; [|auto].
      rewrite El, elem_of_app, elem_of_cons. auto.
    + injection E as <-. cbn. repeat split. auto.
  - destruct (node_in new_node t); simpl negb in E; cbv iota in E;
      injection E as <-; cbn; repeat split; auto.
Qed.

(** The nodes after a merge: those before, and the candidate perhaps. *)
Lemma merge_nodes cur self i self' :
  merge key child cur self i = Ok self' ->
  forall n, n ∈ expanded self' ->
  n ∈ expanded self \/ n = child cur (flip (stack cur) i).
Proof.
  intros E n Hn.
  destruct (merge_inv cur self i self' E)
    as (_ & _ & _ & _ & [Ee| [Ee|(old & e & _ & _ & _ & Hrem & Ee)]]);
    rewrite Ee in Hn.
  - auto.
  - apply elem_of_app in Hn as [Hn|Hn%list_elem_of_singleton]; auto.
  - apply elem_of_app in Hn as [Hn|Hn%list_elem_of_singleton]; [|auto].
    left. exact (list_remove_sub old _ e Hrem n Hn).
Qed.
End StepFacts.

(** ** What a run returns, whatever the fuel *)

Lemma ucs_visits_good P pt self :
  visits backwards_cost ucs_child (ucs_start P) pt self ->
  good backwards_cost no_heuristic P pt self.
Proof.
  apply (visits_good backwards_cost ucs_child no_heuristic P
           ucs_child_stack ucs_child_cost ucs_child_path ucs_child_key
           no_heuristic_flip (ucs_start P)), ucs_start_good.
Qed.

Lemma astar_visits_good P pt self :
  visits total_cost astar_child (astar_start P) pt self ->
  good total_cost Astar.calculate_heuristic_value P pt self.
Proof.
  apply (visits_good total_cost astar_child Astar.calculate_heuristic_value P
           astar_child_stack astar_child_cost astar_child_path
           astar_child_key astar_h_flip (astar_start P)), astar_start_good.
Qed.

Lemma run_ucs_same fuel P r :
  run_ucs fuel P = Some r ->
  exists u su,
    r = Ok (u, su) /\ answer P u
    /\ visits backwards_cost ucs_child (ucs_start P) (AtReturn u) su.
Proof.
  intros E. destruct (run_ucs_returns P) as (u & su & Hu & Au & Hv).
  exists u, su. split; [|auto].
  set (f := Nat.max fuel (S (length (permutations P)))).
  pose proof (Hu f ltac:(lia)) as E1.
  rewrite run_ucs_loop in E, E1.
  rewrite (loop_more_fuel _ _ fuel f _ r E ltac:(lia)) in E1.
  injection E1 as ->. reflexivity.
Qed.

Lemma run_astar_same fuel P r :
  run_astar fuel P = Some r ->
  exists a sa,
    r = Ok (a, sa) /\ answer P a
    /\ visits total_cost astar_child (astar_start P) (AtReturn a) sa.
Proof.
  intros E. destruct (run_astar_returns P) as (a & sa & Ha & Aa & Hv).
  exists a, sa. split; [|auto].
  set (f := Nat.max fuel (S (length (permutations P)))).
  pose proof (Ha f ltac:(lia)) as E1.
  rewrite run_astar_loop in E, E1.
  rewrite (loop_more_fuel _ _ fuel f _ r E ltac:(lia)) in E1.
  injection E1 as ->. reflexivity.
Qed.

(** ** The nodes of a run *)

(** The cost of the node is the least number of flips from [P] to its
    stack. *)
Definition least_cost {N : Type} `{Node N} (P : list Z) (n : N) : Prop :=
  exists c : nat,
    backwards_cost n = Z.of_nat c /\ reach P c (stack n)
    /\ forall c', reach P c' (stack n) -> (c <= c')%nat.

(** The stack of the node is an arrangement of [P], its path goes from [P]
    to its stack flip by flip and has one state more than the node costs,
    and the validator says of its stack what it says of [P]. *)
Definition well_formed {N : Type} `{Node N} (P : list Z) (n : N) : Prop :=
  stack n ≡ₚ P
  /\ path_to P (path n) (stack n)
  /\ Z.of_nat (length (path n)) = backwards_cost n + 1
  /\ is_stack_valid (stack n) = is_stack_valid P.

Lemma is_stack_valid_Permutation (s t : list Z) :
  s ≡ₚ t -> is_stack_valid s = is_stack_valid t.
Proof.
  intros Hst.
  assert (Hiff : is_permutation s <-> is_permutation t).
  { unfold is_permutation. rewrite (Permutation_length Hst), Hst. reflexivity. }
  rewrite <- !is_stack_valid_spec in Hiff.
  destruct (is_stack_valid s), (is_stack_valid t); try reflexivity.
  - symmetry. apply Hiff. reflexivity.
  - apply Hiff. reflexivity.
Qed.

Lemma sound_well_formed {N : Type} `{Node N} key h P (n : N) :
  sound key h P n -> well_formed P n.
Proof.
  intros [(c & _ & Hr) Hp Hl _].
  assert (Hperm : stack n ≡ₚ P) by (symmetry; eapply reach_Permutation, Hr).
  split; [exact Hperm|]. split; [exact Hp|]. split; [exact Hl|].
  apply is_stack_valid_Permutation, Hperm.
Qed.

Lemma closed_least_cost {N : Type} `{Node N} key h P (self : Search N) n :
  core key h P self -> n ∈ traversed self -> least_cost P n.
Proof.
  intros Hc Hn.
  destruct (sound_reach key h P n) as (c & Ec & Hr).
  { apply (core_sound _ _ _ _ Hc), elem_of_app. auto. }
  exists c. split; [exact Ec|]. split; [exact Hr|].
  intros c' Hr'. pose proof (core_best _ _ _ _ Hc n c' Hn Hr'). lia.
Qed.

(** X10: in every state of a run of either search, each node, open or
    closed, has an arrangement of the starting stack for its stack and a
    path of flips from the starting stack to it, one state longer than its
    cost; the validator accepts its stack when it accepts the starting
    stack. *)
Theorem nodes_well_formed (P : list Z) pu (su : Ucs.t) pa (sa : Astar.t) :
  visits backwards_cost ucs_child (ucs_start P) pu su ->
  visits total_cost astar_child (astar_start P) pa sa ->
  (forall n, n ∈ expanded su ++ traversed su -> well_formed P n)
  /\ (forall n, n ∈ expanded sa ++ traversed sa -> well_formed P n).
Proof.
  intros Hu%ucs_visits_good%good_core Ha%astar_visits_good%good_core.
  split; intros n Hn; eapply sound_well_formed.
  - apply (core_sound _ _ _ _ Hu), Hn.
  - apply (core_sound _ _ _ _ Ha), Hn.
Qed.

(** The six nodes of each run on [[1; 3; 2]] in its fifth pass, whose
    paths have up to three flips. *)
Lemma nodes_well_formed_witness :
  Forall (well_formed [1; 3; 2])
    (expanded equal_cost_state ++ traversed equal_cost_state)
  /\ Forall (well_formed [1; 3; 2])
       (expanded astar_fifth_state ++ traversed astar_fifth_state)
  /\ well_formed [1; 3; 2] equal_cost_existing
  /\ well_formed [1; 3; 2] astar_fifth_current.
Proof.
  destruct (nodes_well_formed [1; 3; 2]
              (InFor equal_cost_current [3]) equal_cost_state
              (InFor astar_fifth_current [3]) astar_fifth_state
              equal_cost_state_visited astar_fifth_state_visited)
    as [Hu Ha].
  split; [apply Forall_forall; exact Hu|].
  split; [apply Forall_forall; exact Ha|].
  split.
  - apply Hu. vm_compute. repeat constructor.
  - apply Ha. vm_compute. repeat constructor.
Defined.

(** X11: in every state of a run of either search, the cost of each closed
    node is the least number of flips from the starting stack to its stack:
    a stack is closed by a shortest way to it, not the goal only. *)
Theorem closed_nodes_least_cost (P : list Z) pu (su : Ucs.t)
    pa (sa : Astar.t) :
  visits backwards_cost ucs_child (ucs_start P) pu su ->
  visits total_cost astar_child (astar_start P) pa sa ->
  (forall n, n ∈ traversed su -> least_cost P n)
  /\ (forall n, n ∈ traversed sa -> least_cost P n).
Proof.
  intros Hu%ucs_visits_good%good_core Ha%astar_visits_good%good_core.
  split; intros n Hn; eapply closed_least_cost; eassumption.
Qed.

Lemma closed_nodes_least_cost_witness :
  (forall n, n ∈ traversed equal_cost_state -> least_cost [1; 3; 2] n)
  /\ (forall n, n ∈ traversed (astar_start [1; 3; 2]) ->
        least_cost [1; 3; 2] n).
Proof.
  apply (closed_nodes_least_cost [1; 3; 2]
           (InFor equal_cost_current [3]) equal_cost_state AtWhile _).
  - exact equal_cost_state_visited.
  - apply visits_start.
Defined.

(** X12: no pass of either loop raises: at the head of the loop the
    frontier is never empty, so [expanded[0]] is there, and the removals
    and the lookup by stack inside the pass find their node. *)
Theorem passes_never_raise (P : list Z) (su : Ucs.t) (sa : Astar.t) :
  visits backwards_cost ucs_child (ucs_start P) AtWhile su ->
  visits total_cost astar_child (astar_start P) AtWhile sa ->
  (expanded su <> [] /\ exists r, Ucs.iteration su = Ok r)
  /\ (expanded sa <> [] /\ exists r, Astar.iteration sa = Ok r).
Proof.
  intros Hu%ucs_visits_good Ha%astar_visits_good. split; split.
  - eapply expanded_nonempty, Hu.
  - rewrite ucs_iteration_pass.
    destruct (pass_good backwards_cost ucs_child no_heuristic P
                ucs_child_stack ucs_child_cost ucs_child_path ucs_child_key
                no_heuristic_flip su Hu)
      as [(n & s & E & _)|(s & E & _)]; rewrite E; eauto.
  - eapply expanded_nonempty, Ha.
  - rewrite astar_iteration_pass.
    destruct (pass_good total_cost astar_child Astar.calculate_heuristic_value
                P astar_child_stack astar_child_cost astar_child_path
                astar_child_key astar_h_flip sa Ha)
      as [(n & s & E & _)|(s & E & _)]; rewrite E; eauto.
Qed.

Lemma passes_never_raise_witness :
  (expanded (ucs_start [2; 1]) <> []
   /\ exists r, Ucs.iteration (ucs_start [2; 1]) = Ok r)
  /\ (expanded (astar_start [2; 1]) <> []
      /\ exists r, Astar.iteration (astar_start [2; 1]) = Ok r).
Proof.
  apply (passes_never_raise [2; 1]); apply visits_start.
Defined.

(** ** The count of generated nodes *)

(** The count at a point of a run on [P]: one for the root and
    [max(0, N - 1)] for every closed node whose flips are all merged; the
    node that is returned is closed and not flipped. *)
Definition counted {N : Type} (P : list Z) (pt : @point N) (self : Search N)
    : Prop :=
  let m := Z.of_nat (length P - 1) in
  let t := Z.of_nat (length (traversed self)) in
  match pt with
  | AtWhile => nodes_expanded self = 1 + m * t
  | InFor _ ks => nodes_expanded self + Z.of_nat (length ks) = 1 + m * t
  | AtReturn _ => nodes_expanded self = 1 + m * (t - 1)
  end.

Lemma sound_stack_length {N : Type} `{Node N} key h P (n : N) :
  sound key h P n -> length (stack n) = length P.
Proof.
  intros [(c & _ & Hr) _ _ _]. symmetry.
  eapply Permutation_length, reach_Permutation, Hr.
Qed.

Section Counting.
Context {N : Type} `{Node N}.
Variable key : N -> Z.
Variable child : N -> list Z -> N.
Variable h : list Z -> Z.
Variable P : list Z.
Hypothesis child_stack : forall n s, stack (child n s) = s.
Hypothesis child_cost :
  forall n s, backwards_cost (child n s) = backwards_cost n + 1.
Hypothesis child_path : forall n s, path (child n s) = path n ++ [s].
Hypothesis child_key :
  forall n s, key (child n s) = backwards_cost n + 1 + h s.
Hypothesis h_flip : forall s k, h s <= 1 + h (flip s k).
Variable start : Search N.
Hypothesis start_good' : good key h P AtWhile start.
Hypothesis start_count : nodes_expanded start = 1.
Hypothesis start_closed : traversed start = [].

Lemma closed_length self cur self' :
  visits key child start AtWhile self ->
  close key self = Ok (cur, self') ->
  length (stack cur) = length P.
Proof.
  intros Hv E.
  pose proof (visits_good key child h P child_stack child_cost child_path
                child_key h_flip start AtWhile self start_good' Hv) as Hg.
  destruct (close_inv key self cur self' E) as (rest & Es & _).
  apply (sound_stack_length key h P), (core_sound _ _ _ _ (proj1 Hg)).
  apply elem_of_app. left.
  rewrite <- (sort_by_Permutation key), Es. apply elem_of_cons. auto.
Qed.

Lemma visits_counted pt self :
  visits key child start pt self -> counted P pt self.
Proof.
  intros Hv.
  induction Hv as [|self cur self' Hv IH E Hgoal|self cur self' Hv IH E Hgoal
                   |self cur i ks self' Hv IH E|self cur Hv IH];
    unfold counted in *.
  - rewrite start_count, start_closed. simpl. lia.
  - destruct (close_inv key self cur self' E) as (rest & _ & ->).
    cbn [closed_state nodes_expanded traversed]. rewrite length_app. simpl.
    lia.
  - pose proof (closed_length self cur self' Hv E) as Hlen.
    destruct (close_inv key self cur self' E) as (rest & _ & ->).
    cbn [closed_state nodes_expanded traversed].
    rewrite length_app, range_length, Hlen. simpl. lia.
  - destruct (merge_inv key child cur self i self' E)
      as (_ & Et & _ & Ec & _).
    rewrite Ec, Et. simpl length in IH. lia.
  - simpl in IH. lia.
Qed.
End Counting.

(** X13: the count of generated nodes, at every point of a run of either
    search on a stack of [N] pancakes: at the head of the loop it is
    [1 + max(0, N-1) * len(traversed)], every candidate counted, the
    dropped ones too; inside the [for] the flips still to come are missing;
    at [return] the returned node is closed and has generated nothing. *)
Theorem generated_count (P : list Z) pu (su : Ucs.t) pa (sa : Astar.t) :
  visits backwards_cost ucs_child (ucs_start P) pu su ->
  visits total_cost astar_child (astar_start P) pa sa ->
  counted P pu su /\ counted P pa sa.
Proof.
  intros Hu Ha. split.
  - apply (visits_counted backwards_cost ucs_child no_heuristic P
             ucs_child_stack ucs_child_cost ucs_child_path ucs_child_key
             no_heuristic_flip (ucs_start P) (ucs_start_good P)
             eq_refl eq_refl), Hu.
  - apply (visits_counted total_cost astar_child
             Astar.calculate_heuristic_value P
             astar_child_stack astar_child_cost astar_child_path
             astar_child_key astar_h_flip (astar_start P)
             (astar_start_good P) eq_refl eq_refl), Ha.
Qed.

Lemma generated_count_witness :
  counted [1; 3; 2] (InFor equal_cost_current [3]) equal_cost_state
  /\ counted [1; 3; 2] (@AtWhile AStarNode) (astar_start [1; 3; 2]).
Proof.
  apply (generated_count [1; 3; 2]).
  - exact equal_cost_state_visited.
  - apply visits_start.
Defined.

(** X14: a run of either search that returns has generated one node at
    least and [1 + (N-1) * (N! - 1)] at most, [N] the number of pancakes. *)
Theorem generated_count_bounds (P : list Z) (fuel fuel' : nat)
    u su a sa :
  run_ucs fuel P = Some (Ok (u, su)) ->
  run_astar fuel' P = Some (Ok (a, sa)) ->
  let top :=
    1 + Z.of_nat (length P - 1) * (Z.of_nat (fact (length P)) - 1) in
  1 <= nodes_expanded su <= top /\ 1 <= nodes_expanded sa <= top.
Proof.
  intros Eu Ea top.
  destruct (run_ucs_same fuel P _ Eu) as (u' & su' & [= <- <-] & _ & Hu).
  destruct (run_astar_same fuel' P _ Ea) as (a' & sa' & [= <- <-] & _ & Ha).
  pose proof (visits_counted backwards_cost ucs_child no_heuristic P
                ucs_child_stack ucs_child_cost ucs_child_path ucs_child_key
                no_heuristic_flip (ucs_start P) (ucs_start_good P)
                eq_refl eq_refl _ _ Hu) as Cu.
  pose proof (visits_counted total_cost astar_child
                Astar.calculate_heuristic_value P
                astar_child_stack astar_child_cost astar_child_path
                astar_child_key astar_h_flip (astar_start P)
                (astar_start_good P) eq_refl eq_refl _ _ Ha) as Ca.
  apply ucs_visits_good in Hu as (Hcu & Hinu & _).
  apply astar_visits_good in Ha as (Hca & Hina & _).
  pose proof (closed_bound _ _ _ _ Hcu) as Bu.
  pose proof (closed_bound _ _ _ _ Hca) as Ba.
  rewrite permutations_length in Bu, Ba.
  assert (Hu1 : (1 <= length (traversed su))%nat).
  { destruct (traversed su); [apply elem_of_nil in Hinu; contradiction|].
    simpl. lia. }
  assert (Ha1 : (1 <= length (traversed sa))%nat).
  { destruct (traversed sa); [apply elem_of_nil in Hina; contradiction|].
    simpl. lia. }
  unfold counted in Cu, Ca. unfold top. split; nia.
Qed.

Lemma generated_count_bounds_witness :
  exists u su a sa,
    run_ucs 2 [2; 1] = Some (Ok (u, su))
    /\ run_astar 2 [2; 1] = Some (Ok (a, sa))
    /\ 1 <= nodes_expanded su <= 2 /\ 1 <= nodes_expanded sa <= 2.
Proof.
  do 4 eexists. split; [reflexivity|]. split; [reflexivity|].
  exact (generated_count_bounds [2; 1] 2 2 _ _ _ _ eq_refl eq_refl).
Defined.

(** ** The order in which nodes are closed *)

(** A node closed earlier has a key no higher than one closed later. *)
Definition in_closing_order {N : Type} (key : N -> Z) (l : list N) : Prop :=
  forall (i j : nat) a b,
    (i <= j)%nat -> l !! i = Some a -> l !! j = Some b -> key a <= key b.

(** The closed nodes are in order, and no open node has a key below that of
    a closed one. *)
Definition keys_in_order {N : Type} (key : N -> Z) (self : Search N) : Prop :=
  in_closing_order key (traversed self)
  /\ forall n m, n ∈ traversed self -> m ∈ expanded self -> key n <= key m.

Lemma in_closing_order_snoc {N : Type} (key : N -> Z) (l : list N) x :
  in_closing_order key l -> (forall n, n ∈ l -> key n <= key x) ->
  in_closing_order key (l ++ [x]).
Proof.
  intros Hl Hx i j a b Hij Ha Hb.
  assert (Hj : (j < length (l ++ [x]))%nat) by (eapply lookup_lt_Some, Hb).
  rewrite length_app in Hj. simpl in Hj.
  destruct (decide (j < length l)%nat) as [Hlt|Hge].
  - rewrite lookup_app_l in Ha by lia. rewrite lookup_app_l in Hb by lia.
    exact (Hl i j a b Hij Ha Hb).
  - rewrite lookup_app_r in Hb by lia.
    replace (j - length l)%nat with 0%nat in Hb by lia. injection Hb as <-.
    destruct (decide (i < length l)%nat) as [Hlt|Hge'].
    + rewrite lookup_app_l in Ha by lia.
      apply Hx. eapply list_elem_of_lookup_2, Ha.
    + rewrite lookup_app_r in Ha by lia.
      replace (i - length l)%nat with 0%nat in Ha by lia. injection Ha as <-.
      lia.
Qed.

Section Ordering.
Context {N : Type} `{Node N}.
Variable key : N -> Z.
Variable child : N -> list Z -> N.
Variable h : list Z -> Z.
Variable P : list Z.
Hypothesis child_stack : forall n s, stack (child n s) = s.
Hypothesis child_cost :
  forall n s, backwards_cost (child n s) = backwards_cost n + 1.
Hypothesis child_path : forall n s, path (child n s) = path n ++ [s].
Hypothesis child_key :
  forall n s, key (child n s) = backwards_cost n + 1 + h s.
Hypothesis h_flip : forall s k, h s <= 1 + h (flip s k).
Variable start : Search N.
Hypothesis start_good' : good key h P AtWhile start.
Hypothesis start_closed : traversed start = [].

(** Inside the [for], the node being flipped has the highest key of the
    closed nodes. *)
Definition ordered (pt : point) (self : Search N) : Prop :=
  keys_in_order key self
  /\ match pt with
     | InFor cur _ => forall n, n ∈ traversed self -> key n <= key cur
     | _ => True
     end.

Lemma closed_ordered self cur rest :
  keys_in_order key self ->
  sort_by key (expanded self) = cur :: rest ->
  keys_in_order key (closed_state self cur rest)
  /\ forall n, n ∈ traversed (closed_state self cur rest) ->
       key n <= key cur.
Proof.
  intros [Hord Hlow] Es. cbn [closed_state traversed expanded].
  assert (Hcur : cur ∈ expanded self).
  { rewrite <- (sort_by_Permutation key), Es. apply elem_of_cons. auto. }
  assert (Hrest : forall m, m ∈ rest -> m ∈ expanded self).
  { intros m Hm. rewrite <- (sort_by_Permutation key), Es.
    apply elem_of_cons. auto. }
  assert (Hle : forall n, n ∈ traversed self ++ [cur] -> key n <= key cur).
  { intros n [Hn|Hn%list_elem_of_singleton]%elem_of_app.
    - apply Hlow; assumption.
    - subst n. lia. }
  split; [split|exact Hle].
  - unfold keys_in_order. cbn [traversed].
    apply in_closing_order_snoc; [exact Hord|].
    intros n Hn. apply Hlow; assumption.
  - cbn [traversed expanded].
    intros n m [Hn|Hn%list_elem_of_singleton]%elem_of_app Hm.
    + apply Hlow; [exact Hn | apply Hrest, Hm].
    + subst n. apply (sort_by_lowest key _ _ _ Es), Hrest, Hm.
Qed.

Lemma visits_ordered pt self :
  visits key child start pt self -> ordered pt self.
Proof.
  intros Hv.
  induction Hv as [|self cur self' Hv IH E Hgoal|self cur self' Hv IH E Hgoal
                   |self cur i ks self' Hv IH E|self cur Hv IH].
  - split; [|exact I]. split.
    + rewrite start_closed. intros i j a b _ Ha. destruct i; discriminate Ha.
    + intros n m Hn. rewrite start_closed in Hn.
      apply elem_of_nil in Hn. contradiction.
  - destruct (close_inv key self cur self' E) as (rest & Es & ->).
    split; [|exact I]. apply (closed_ordered self cur rest (proj1 IH) Es).
  - destruct (close_inv key self cur self' E) as (rest & Es & ->).
    exact (closed_ordered self cur rest (proj1 IH) Es).
  - destruct IH as [[Hord Hlow] Hcur].
    destruct (merge_inv key child cur self i self' E) as (_ & Et & _ & _ & _).
    pose proof (visits_good key child h P child_stack child_cost child_path
                  child_key h_flip start _ self start_good' Hv)
      as (Hc & _ & _ & Hin & _).
    assert (Hnew : key cur <= key (child cur (flip (stack cur) i))).
    { rewrite child_key.
      rewrite (sound_key key h P cur)
        by (apply (core_sound _ _ _ _ Hc), elem_of_app; auto).
      pose proof (h_flip (stack cur) i). lia. }
    split; [split|]; rewrite ?Et; try assumption.
    intros n m Hn Hm.
    destruct (merge_nodes key child cur self i self' E m Hm) as [Hm'| ->].
    + apply Hlow; assumption.
    + specialize (Hcur n Hn). lia.
  - split; [apply IH | exact I].
Qed.
End Ordering.

(** X15: in every state of a run, the closed nodes of UCS are in
    [traversed] in the order of their [backwards_cost], those of A* in the
    order of their [total_cost], lowest first, and no node of the frontier
    has a cost below that of a closed node. *)
Theorem closed_in_key_order (P : list Z) pu (su : Ucs.t) pa (sa : Astar.t) :
  visits backwards_cost ucs_child (ucs_start P) pu su ->
  visits total_cost astar_child (astar_start P) pa sa ->
  keys_in_order backwards_cost su /\ keys_in_order total_cost sa.
Proof.
  intros Hu Ha. split.
  - apply (visits_ordered backwards_cost ucs_child no_heuristic P
             ucs_child_stack ucs_child_cost ucs_child_path ucs_child_key
             no_heuristic_flip (ucs_start P) (ucs_start_good P) eq_refl pu),
      Hu.
  - apply (visits_ordered total_cost astar_child
             Astar.calculate_heuristic_value P
             astar_child_stack astar_child_cost astar_child_path
             astar_child_key astar_h_flip (astar_start P)
             (astar_start_good P) eq_refl pa), Ha.
Qed.

Lemma closed_in_key_order_witness :
  keys_in_order backwards_cost equal_cost_state
  /\ keys_in_order total_cost (astar_start [1; 3; 2]).
Proof.
  apply (closed_in_key_order [1; 3; 2]
           (InFor equal_cost_current [3]) equal_cost_state AtWhile _).
  - exact equal_cost_state_visited.
  - apply visits_start.
Defined.

(** ** UCS never takes a node out of its frontier to put a cheaper one in *)

(** The costs of the frontier of UCS: at the head of the loop they differ
    by one at most; inside the [for] they are the cost of the node being
    flipped or one more. *)
Definition cost_band (pt : @point UcsNode) (self : Ucs.t) : Prop :=
  match pt with
  | AtWhile =>
      forall m m', m ∈ expanded self -> m' ∈ expanded self ->
      backwards_cost m <= backwards_cost m' + 1
  | InFor cur _ =>
      forall m, m ∈ expanded self ->
      backwards_cost cur <= backwards_cost m <= backwards_cost cur + 1
  | AtReturn _ => True
  end.

Lemma ucs_visits_cost_band P pt self :
  visits backwards_cost ucs_child (ucs_start P) pt self -> cost_band pt self.
Proof.
  intros Hv.
  induction Hv as [|self cur self' Hv IH E Hgoal|self cur self' Hv IH E Hgoal
                   |self cur i ks self' Hv IH E|self cur Hv IH];
    cbn [cost_band] in *.
  - intros m m' Hm Hm'. cbn in Hm, Hm'.
    apply list_elem_of_singleton in Hm as ->.
    apply list_elem_of_singleton in Hm' as ->. lia.
  - exact I.
  - destruct (close_inv _ self cur self' E) as (rest & Es & ->).
    cbn [closed_state expanded]. intros m Hm.
    assert (Hcur : cur ∈ expanded self).
    { rewrite <- (sort_by_Permutation backwards_cost), Es.
      apply elem_of_cons. auto. }
    assert (Hm' : m ∈ expanded self).
    { rewrite <- (sort_by_Permutation backwards_cost), Es.
      apply elem_of_cons. auto. }
    split; [apply (sort_by_lowest backwards_cost _ _ _ Es), Hm'|].
    apply IH; assumption.
  - intros m Hm.
    destruct (merge_nodes _ _ cur self i self' E m Hm) as [Hm'| ->].
    + apply IH, Hm'.
    + simpl. lia.
  - intros m m' Hm Hm'. pose proof (IH m Hm). pose proof (IH m' Hm'). lia.
Qed.

(** X16: in a run of UCS the merge of a flip never replaces a node of the
    frontier: it leaves the frontier as it is or appends the candidate.  The
    candidate costs one more than the node being flipped, and no node of
    the frontier costs more than that. *)
Theorem ucs_never_replaces (P : list Z) current_node i ks (self : Ucs.t) :
  visits backwards_cost ucs_child (ucs_start P)
    (InFor current_node (i :: ks)) self ->
  exists self',
    Ucs.expand current_node self i = Ok self'
    /\ (expanded self' = expanded self
        \/ expanded self'
           = expanded self
             ++ [ucs_child current_node (flip (stack current_node) i)]).
Proof.
  intros Hv. pose proof (ucs_visits_cost_band P _ _ Hv) as Hband.
  cbn [cost_band] in Hband.
  destruct (merge_good backwards_cost ucs_child no_heuristic P
              ucs_child_stack ucs_child_cost ucs_child_path ucs_child_key
              self current_node i ks
              (ucs_visits_good P _ _ Hv)) as (self' & E & _).
  exists self'. rewrite ucs_expand_merge. split; [exact E|].
  destruct (merge_inv _ _ current_node self i self' E)
    as (_ & _ & _ & _ & [Ee| [Ee|(old & e & Hold & _ & Hlt & _)]]); auto.
  exfalso. pose proof (Hband old Hold) as Hcost.
  rewrite ucs_child_cost in Hlt. lia.
Qed.

Lemma ucs_never_replaces_witness :
  exists self',
    Ucs.expand equal_cost_current equal_cost_state 3 = Ok self'
    /\ (expanded self' = expanded equal_cost_state
        \/ expanded self'
           = expanded equal_cost_state
             ++ [ucs_child equal_cost_current
                   (flip (stack equal_cost_current) 3)]).
Proof.
  exact (ucs_never_replaces [1; 3; 2] equal_cost_current 3 [] equal_cost_state
           equal_cost_state_visited).
Defined.

(** ** The cost attributes of the nodes of A* *)

(** The heuristic cost of the node is the heuristic value of its stack and
    its total cost is the sum of its two costs. *)
Definition costs_add_up (n : AStarNode) : Prop :=
  heuristic_cost n = Astar.calculate_heuristic_value (stack n)
  /\ total_cost n = heuristic_cost n + backwards_cost n.

(** X17: in every state of a run of A*, each node, open or closed, has
    the heuristic value of its stack for [heuristic_cost], and
    [heuristic_cost + backwards_cost] for [total_cost]; its root too, whose
    [heuristic_cost] [start_search] sets a second time. *)
Theorem astar_costs_add_up (P : list Z) pt (self : Astar.t) :
  visits total_cost astar_child (astar_start P) pt self ->
  forall n, n ∈ expanded self ++ traversed self -> costs_add_up n.
Proof.
  intros Hv.
  induction Hv as [|self cur self' Hv IH E Hgoal|self cur self' Hv IH E Hgoal
                   |self cur i ks self' Hv IH E|self cur Hv IH];
    intros n Hn.
  - cbn in Hn. apply list_elem_of_singleton in Hn as ->. split; reflexivity.
  - destruct (close_inv _ self cur self' E) as (rest & Es & ->).
    apply IH. rewrite <- (closed_nodes total_cost self cur rest Es). exact Hn.
  - destruct (close_inv _ self cur self' E) as (rest & Es & ->).
    apply IH. rewrite <- (closed_nodes total_cost self cur rest Es). exact Hn.
  - destruct (merge_inv _ _ cur self i self' E) as (_ & Et & _).
    apply elem_of_app in Hn as [Hn|Hn].
    + destruct (merge_nodes _ _ cur self i self' E n Hn) as [Hn'| ->].
      * apply IH, elem_of_app. auto.
      * split; reflexivity.
    + rewrite Et in Hn. apply IH, elem_of_app. auto.
  - apply IH, Hn.
Qed.

(** The six nodes of the A* run on [[1; 3; 2]] in its fifth pass: five of
    them are built in the for loop, and the one the pass closes has a
    heuristic cost of 1, a backward cost of 2 and a total cost of 3. *)
Lemma astar_costs_add_up_witness :
  Forall costs_add_up
    (expanded astar_fifth_state ++ traversed astar_fifth_state)
  /\ costs_add_up astar_fifth_current
  /\ heuristic_cost astar_fifth_current = 1
  /\ backwards_cost astar_fifth_current = 2
  /\ total_cost astar_fifth_current = 3.
Proof.
  pose proof (astar_costs_add_up [1; 3; 2]
                (InFor astar_fifth_current [3]) astar_fifth_state
                astar_fifth_state_visited) as Hall.
  split; [apply Forall_forall; exact Hall|].
  split; [|repeat split].
  apply Hall. vm_compute. repeat constructor.
Defined.

(** ** The returned path *)

Lemma flips_only_app_l (p q : list (list Z)) :
  flips_only (p ++ q) -> flips_only p.
Proof.
  intros Hf i a b Ha Hb. apply (Hf i a b).
  - apply lookup_app_l_Some, Ha.
  - apply lookup_app_l_Some, Hb.
Qed.

Lemma flips_only_drop (p : list (list Z)) j :
  flips_only p -> flips_only (drop j p).
Proof.
  intros Hf i a b Ha Hb. rewrite lookup_drop in Ha, Hb.
  apply (Hf (j + i)%nat a b Ha). rewrite <- Nat.add_succ_r. exact Hb.
Qed.

Lemma flips_only_take (p : list (list Z)) j :
  flips_only p -> flips_only (take j p).
Proof.
  intros Hf. apply (flips_only_app_l (take j p) (drop j p)).
  rewrite take_drop. exact Hf.
Qed.

(** A list of states, each one flip from the one before, is a way from its
    first to its last state. *)
Lemma flips_only_reach (p : list (list Z)) : forall s t,
  head p = Some s -> last p = Some t -> flips_only p ->
  reach s (length p - 1) t.
Proof.
  induction p as [|x p IH] using rev_ind; intros s t Hhd Hlast Hf.
  - discriminate Hhd.
  - rewrite last_snoc in Hlast. injection Hlast as <-.
    destruct (last p) as [y|] eqn:Hy.
    + assert (Hne : (0 < length p)%nat).
      { destruct p; [discriminate Hy | simpl; lia]. }
      assert (Hhd' : head p = Some s).
      { destruct p; [discriminate Hy | exact Hhd]. }
      pose proof (IH s y Hhd' eq_refl (flips_only_app_l _ _ Hf)) as Hr.
      rewrite last_lookup in Hy.
      destruct (Hf (pred (length p)) y x) as (k & Hk & ->).
      * apply lookup_app_l_Some, Hy.
      * replace (S (pred (length p))) with (length p) by lia.
        rewrite lookup_app_r by lia. rewrite Nat.sub_diag. reflexivity.
      * rewrite length_app. simpl.
        replace (length p + 1 - 1)%nat with (S (length p - 1)) by lia.
        apply reach_flip; assumption.
    + assert (p = []) as ->.
      { destruct p as [|z p]; [reflexivity|].
        rewrite last_lookup in Hy. apply lookup_ge_None in Hy.
        simpl in Hy. lia. }
      injection Hhd as <-. apply reach_here.
Qed.

(** A path of flips from [P] to [t] that no way of flips beats has no
    state twice. *)
Lemma shortest_path_NoDup (P t : list Z) (p : list (list Z)) :
  path_to P p t ->
  (forall c, reach P c t -> (length p - 1 <= c)%nat) ->
  NoDup p.
Proof.
  intros (Hhd & Hlast & Hf) Hleast.
  assert (Hcut : forall i j x,
            (i < j)%nat -> p !! i = Some x -> p !! j = Some x -> False).
  { intros i j x Hij Hi Hj.
    pose proof (lookup_lt_Some _ _ _ Hj) as Hjlen.
    assert (R1 : reach P i x).
    { replace i with (length (take (S i) p) - 1)%nat
        by (rewrite length_take; lia).
      apply flips_only_reach.
      - destruct p; [discriminate Hhd | exact Hhd].
      - rewrite last_lookup, length_take.
        replace (pred (S i `min` length p)) with i by lia.
        rewrite lookup_take_lt by lia. exact Hi.
      - apply flips_only_take, Hf. }
    assert (R2 : reach x (length p - j - 1) t).
    { replace (length p - j - 1)%nat with (length (drop j p) - 1)%nat
        by (rewrite length_drop; lia).
      apply flips_only_reach.
      - rewrite head_lookup, lookup_drop, Nat.add_0_r. exact Hj.
      - rewrite last_lookup, length_drop, lookup_drop.
        replace (j + pred (length p - j))%nat with (pred (length p)) by lia.
        rewrite <- last_lookup. exact Hlast.
      - apply flips_only_drop, Hf. }
    pose proof (Hleast _ (reach_trans _ _ _ _ _ R1 R2)). lia. }
  apply NoDup_alt. intros i j x Hi Hj.
  destruct (Nat.lt_trichotomy i j) as [Hlt|[Heq|Hgt]]; [|exact Heq|].
  - destruct (Hcut i j x Hlt Hi Hj).
  - destruct (Hcut j i x Hgt Hj Hi).
Qed.

Lemma answer_NoDup {N : Type} `{Node N} (P : list Z) (node : N) :
  answer P node -> NoDup (path node).
Proof.
  intros [_ Hp Hl _ Hleast]. apply (shortest_path_NoDup P (sorted P)).
  - exact Hp.
  - intros c Hr. specialize (Hleast c Hr). lia.
Qed.

(** X18: the path either search returns has no stack twice: a solution
    never comes back to a stack it has left. *)
Theorem returned_path_no_repeat (P : list Z) (fuel fuel' : nat)
    u su a sa :
  run_ucs fuel P = Some (Ok (u, su)) ->
  run_astar fuel' P = Some (Ok (a, sa)) ->
  NoDup (path u) /\ NoDup (path a).
Proof.
  intros Eu Ea.
  destruct (run_ucs_same fuel P _ Eu) as (u' & su' & [= <- <-] & Au & _).
  destruct (run_astar_same fuel' P _ Ea) as (a' & sa' & [= <- <-] & Aa & _).
  split; eapply answer_NoDup; eassumption.
Qed.

Lemma returned_path_no_repeat_witness :
  exists u su a sa,
    run_ucs 2 [2; 1] = Some (Ok (u, su))
    /\ run_astar 2 [2; 1] = Some (Ok (a, sa))
    /\ NoDup (path u) /\ NoDup (path a).
Proof.
  do 4 eexists. split; [reflexivity|]. split; [reflexivity|].
  exact (returned_path_no_repeat [2; 1] 2 2 _ _ _ _ eq_refl eq_refl).
Defined.

(** ** A stack that is sorted already *)

Lemma run_ucs_fuel (P : list Z) fuel fuel' r r' :
  run_ucs fuel P = Some r -> run_ucs fuel' P = Some r' -> r = r'.
Proof.
  rewrite !run_ucs_loop. intros E E'.
  apply (loop_more_fuel _ _ _ (Nat.max fuel fuel')) in E; [|lia].
  apply (loop_more_fuel _ _ _ (Nat.max fuel fuel')) in E'; [|lia].
  congruence.
Qed.

Lemma run_astar_fuel (P : list Z) fuel fuel' r r' :
  run_astar fuel P = Some r -> run_astar fuel' P = Some r' -> r = r'.
Proof.
  rewrite !run_astar_loop. intros E E'.
  apply (loop_more_fuel _ _ _ (Nat.max fuel fuel')) in E; [|lia].
  apply (loop_more_fuel _ _ _ (Nat.max fuel fuel')) in E'; [|lia].
  congruence.
Qed.

Lemma run_ucs_sorted (P : list Z) :
  sorted P = P ->
  run_ucs 1 P
  = Some (Ok (root (Ucs.init P),
              closed_state (ucs_start P) (root (Ucs.init P)) [])).
Proof.
  intros E. rewrite run_ucs_loop. cbn [loop]. unfold pass.
  rewrite (close_sorted backwards_cost (ucs_start P) (root (Ucs.init P)) []
             eq_refl).
  cbn [mbind result_bind]. rewrite bool_decide_eq_true_2; [reflexivity|].
  simpl. symmetry. exact E.
Qed.

Lemma run_astar_sorted (P : list Z) :
  sorted P = P ->
  run_astar 1 P
  = Some (Ok (root (astar_start P),
              closed_state (astar_start P) (root (astar_start P)) [])).
Proof.
  intros E. rewrite run_astar_loop. cbn [loop]. unfold pass.
  rewrite (close_sorted total_cost (astar_start P) (root (astar_start P)) []
             eq_refl).
  cbn [mbind result_bind]. rewrite bool_decide_eq_true_2; [reflexivity|].
  simpl. symmetry. exact E.
Qed.

Lemma reach_zero (s t : list Z) : reach s 0 t -> t = s.
Proof. intros Hr. inversion Hr. reflexivity. Qed.

Lemma answer_cost_zero {N : Type} `{Node N} (P : list Z) (node : N) :
  answer P node -> backwards_cost node = 0 <-> sorted P = P.
Proof.
  intros [_ _ _ (c & Ec & Hr) Hleast]. split.
  - intros E0. assert (c = 0%nat) as -> by lia.
    exact (reach_zero P (sorted P) Hr).
  - intros E. assert (Hr0 : reach P 0 (sorted P)).
    { rewrite E. apply reach_here. }
    specialize (Hleast 0%nat Hr0). lia.
Qed.

(** X19: either search returns cost 0 exactly when the starting stack is
    sorted already; it then returns in its first pass, with the starting
    stack alone for path and a count of one generated node. *)
Theorem sorted_input (P : list Z) (fuel fuel' : nat) u su a sa :
  run_ucs fuel P = Some (Ok (u, su)) ->
  run_astar fuel' P = Some (Ok (a, sa)) ->
  (backwards_cost u = 0 <-> sorted P = P)
  /\ (backwards_cost a = 0 <-> sorted P = P)
  /\ (sorted P = P ->
      path u = [P] /\ nodes_expanded su = 1 /\ traversed su = [u]
      /\ path a = [P] /\ nodes_expanded sa = 1 /\ traversed sa = [a]).
Proof.
  intros Eu Ea.
  destruct (run_ucs_same fuel P _ Eu) as (u' & su' & [= <- <-] & Au & _).
  destruct (run_astar_same fuel' P _ Ea) as (a' & sa' & [= <- <-] & Aa & _).
  split; [apply answer_cost_zero, Au|]. split; [apply answer_cost_zero, Aa|].
  intros E.
  pose proof (run_ucs_fuel P _ _ _ _ Eu (run_ucs_sorted P E)) as [= -> ->].
  pose proof (run_astar_fuel P _ _ _ _ Ea (run_astar_sorted P E)) as [= -> ->].
  repeat split.
Qed.

Lemma sorted_input_witness :
  exists u su a sa,
    run_ucs 1 [1; 2; 3] = Some (Ok (u, su))
    /\ run_astar 1 [1; 2; 3] = Some (Ok (a, sa))
    /\ (backwards_cost u = 0 <-> sorted [1; 2; 3] = [1; 2; 3])
    /\ (backwards_cost a = 0 <-> sorted [1; 2; 3] = [1; 2; 3])
    /\ (sorted [1; 2; 3] = [1; 2; 3] ->
        path u = [[1; 2; 3]] /\ nodes_expanded su = 1 /\ traversed su = [u]
        /\ path a = [[1; 2; 3]] /\ nodes_expanded sa = 1
        /\ traversed sa = [a]).
Proof.
  do 4 eexists. split; [reflexivity|]. split; [reflexivity|].
  exact (sorted_input [1; 2; 3] 1 1 _ _ _ _ eq_refl eq_refl).
Defined.

(** ** Printing the result *)

Import Stdlib.Strings.String.StringSyntax.
Local Open Scope string_scope.

(** [str(n)] of an integer: its decimal digits, after a minus sign when it
    is negative. *)
Definition str_int (n : Z) : String.string :=
  DecimalString.NilZero.string_of_int (Z.to_int n).

(** [str(stack)] of a list of integers: [[4, 1, 5]]. *)
Definition str_list (stack : list Z) : String.string :=
  String.append "["
    (String.append (String.concat ", " (map str_int stack)) "]").

Definition newline : String.string :=
  String.String (Ascii.ascii_of_nat 10) String.EmptyString.

(** What [print(" -> ")] writes. *)
Definition arrow : String.string := String.append " -> " newline.

(** The first text [print_results] writes. *)
Definition first_line : String.string := String.append "Optimal path:" newline.

(** The last: the cost of the path, the count of nodes and the time. *)
Definition last_lines (cost nodes_expanded : Z) (time_elapsed : String.string)
    : String.string :=
  String.concat String.EmptyString
    [newline; "Path cost: "; str_int cost; ".";
     newline; "Number of expanded nodes: "; str_int nodes_expanded; ".";
     newline; "Time elapsed: "; time_elapsed; " sec."; newline].

Local Close Scope string_scope.

(** [FlippingSort.print_results]: the texts its calls of [print] write, in
    order.  [time_elapsed] is the text of that number. *)
Definition print_results {N : Type} `{Node N} (target_node : N)
    (nodes_expanded : Z) (time_elapsed : String.string)
    : list String.string :=
  [first_line]
  ++ flat_map
       (fun stack =>
          (if bool_decide (Some stack <> head (path target_node))
           then [arrow] else [])
          ++ [str_list stack])
       (path target_node)
  ++ [last_lines (backwards_cost target_node) nodes_expanded time_elapsed].

Lemma arrows_before_others (x : list Z) (rest : list (list Z)) :
  x ∉ rest ->
  flat_map
    (fun stack =>
       (if bool_decide (Some stack <> Some x) then [arrow] else [])
       ++ [str_list stack]) rest
  = flat_map (fun stack => [arrow; str_list stack]) rest.
Proof.
  induction rest as [|s rest IH]; intros Hout; [reflexivity|].
  apply not_elem_of_cons in Hout as [Hne Hout].
  cbn [flat_map]. rewrite (IH Hout).
  rewrite bool_decide_eq_true_2 by congruence. reflexivity.
Qed.

Lemma print_results_NoDup {N : Type} `{Node N} (node : N) n t P rest :
  path node = P :: rest -> NoDup (path node) ->
  print_results node n t
  = [first_line]
    ++ str_list P :: flat_map (fun stack => [arrow; str_list stack]) rest
    ++ [last_lines (backwards_cost node) n t].
Proof.
  intros Ep Hnd. unfold print_results. rewrite Ep in Hnd |- *.
  apply NoDup_cons in Hnd as [Hout _].
  cbn [flat_map head].
  rewrite bool_decide_eq_false_2 by (intros Hne; apply Hne; reflexivity).
  rewrite (arrows_before_others P rest Hout). reflexivity.
Qed.

(** What [print_results] writes for a path that begins with [P] and goes
    on with [rest]: the first line, [P], an arrow and a stack for each
    stack of [rest], and the last lines. *)
Definition prints_arrows {N : Type} `{Node N} (P : list Z) (node : N)
    (n : Z) (t : String.string) : Prop :=
  exists rest,
    path node = P :: rest
    /\ Z.of_nat (length rest) = backwards_cost node
    /\ print_results node n t
       = [first_line]
         ++ str_list P :: flat_map (fun stack => [arrow; str_list stack]) rest
         ++ [last_lines (backwards_cost node) n t].

Lemma answer_prints_arrows {N : Type} `{Node N} (P : list Z) (node : N) n t :
  answer P node -> prints_arrows P node n t.
Proof.
  intros A. pose proof (answer_NoDup P node A) as Hnd.
  destruct A as [_ (Hhd & _) Hl _ _].
  destruct (path node) as [|x rest] eqn:Ep; [discriminate Hhd|].
  injection Hhd as ->. exists rest. split; [exact Ep|].
  split; [cbn [length] in Hl; lia|].
  apply print_results_NoDup; [exact Ep | rewrite Ep; exact Hnd].
Qed.

(** X20: for the node either search returns, [print_results] writes the
    starting stack and then, for every flip, an arrow and the stack the
    flip gives: as many arrows as the cost.  It leaves the arrow out before
    a stack equal to the first of the path, and the returned path has none
    but the first. *)
Theorem printed_arrows (P : list Z) (fuel fuel' : nat) u su a sa
    (t t' : String.string) :
  run_ucs fuel P = Some (Ok (u, su)) ->
  run_astar fuel' P = Some (Ok (a, sa)) ->
  prints_arrows P u (nodes_expanded su) t
  /\ prints_arrows P a (nodes_expanded sa) t'.
Proof.
  intros Eu Ea.
  destruct (run_ucs_same fuel P _ Eu) as (u' & su' & [= <- <-] & Au & _).
  destruct (run_astar_same fuel' P _ Ea) as (a' & sa' & [= <- <-] & Aa & _).
  split; apply answer_prints_arrows; assumption.
Qed.

Lemma printed_arrows_witness :
  exists u su a sa,
    run_ucs 2 [2; 1] = Some (Ok (u, su))
    /\ run_astar 2 [2; 1] = Some (Ok (a, sa))
    /\ prints_arrows [2; 1] u (nodes_expanded su) String.EmptyString
    /\ prints_arrows [2; 1] a (nodes_expanded sa) String.EmptyString.
Proof.
  do 4 eexists. split; [reflexivity|]. split; [reflexivity|].
  exact (printed_arrows [2; 1] 2 2 _ _ _ _ _ _ eq_refl eq_refl).
Defined.

(** ** The state a search returns in *)

Lemma visits_return_inv {N : Type} `{Node N} key child (start : Search N)
    node self' :
  visits key child start (AtReturn node) self' ->
  exists self rest,
    visits key child start AtWhile self
    /\ sort_by key (expanded self) = node :: rest
    /\ self' = closed_state self node rest.
Proof.
  intros Hv. inversion Hv as [|self cur s' Hv' E Hgoal| | |]; subst.
  destruct (close_inv key self node self' E) as (rest & Es & ->).
  exists self, rest. auto.
Qed.

(** What holds when a search returns [node] in the state [self] after a
    run on [P]: the node is the last of the closed list, no other closed
    node and no open node has the goal for stack, and no closed node has a
    higher key. *)
Definition returned_last {N : Type} `{Node N} (key : N -> Z) (node : N)
    (self : Search N) : Prop :=
  (exists earlier,
      traversed self = earlier ++ [node]
      /\ forall n, n ∈ earlier -> stack n <> goal_stack self)
  /\ (forall m, m ∈ expanded self -> stack m <> goal_stack self)
  /\ (forall n, n ∈ traversed self -> key n <= key node).

Lemma returned_last_good {N : Type} `{Node N} key h P (self : Search N)
    node rest :
  good key h P AtWhile self ->
  sort_by key (expanded self) = node :: rest ->
  stack node = goal_stack self ->
  keys_in_order key self ->
  returned_last key node (closed_state self node rest).
Proof.
  intros Hg Es Hgoal [_ Hlow]. pose proof Hg as (Hc & _ & Ho).
  assert (Hin : forall m, m ∈ node :: rest -> m ∈ expanded self).
  { intros m Hm. rewrite <- (sort_by_Permutation key), Es. exact Hm. }
  split; [|split]; cbn [closed_state traversed expanded goal_stack].
  - exists (traversed self). split; [reflexivity | exact Ho].
  - intros m Hm E.
    pose proof (core_nodup _ _ _ _ Hc) as Hnd. unfold nodes in Hnd.
    rewrite fmap_app in Hnd. apply NoDup_app in Hnd as (Hnd & _ & _).
    rewrite <- (sort_by_Permutation key), Es in Hnd.
    rewrite fmap_cons in Hnd. apply NoDup_cons in Hnd as [Hout _].
    apply Hout. rewrite Hgoal, <- E. apply list_elem_of_fmap_2, Hm.
  - intros n [Hn|Hn%list_elem_of_singleton]%elem_of_app.
    + apply Hlow; [exact Hn|]. apply Hin, elem_of_cons. auto.
    + subst n. lia.
Qed.

(** X21: when either search returns, the returned node is the last node
    of [traversed]; no other node, closed or open, has the goal for stack;
    and no closed node costs more than it, by [backwards_cost] for UCS and
    by [total_cost] for A*. *)
Theorem goal_closed_last (P : list Z) (fuel fuel' : nat) u su a sa :
  run_ucs fuel P = Some (Ok (u, su)) ->
  run_astar fuel' P = Some (Ok (a, sa)) ->
  returned_last backwards_cost u su /\ returned_last total_cost a sa.
Proof.
  intros Eu Ea.
  destruct (run_ucs_same fuel P _ Eu) as (u' & su' & [= <- <-] & _ & Hu).
  destruct (run_astar_same fuel' P _ Ea) as (a' & sa' & [= <- <-] & _ & Ha).
  split.
  - pose proof (ucs_visits_good P _ _ Hu) as (_ & _ & Hgoal).
    destruct (visits_return_inv _ _ _ u su Hu) as (self & rest & Hv & Es & ->).
    apply (returned_last_good backwards_cost no_heuristic P);
      [apply ucs_visits_good, Hv | exact Es | exact Hgoal |].
    apply (visits_ordered backwards_cost ucs_child no_heuristic P
             ucs_child_stack ucs_child_cost ucs_child_path ucs_child_key
             no_heuristic_flip (ucs_start P) (ucs_start_good P) eq_refl
             AtWhile), Hv.
  - pose proof (astar_visits_good P _ _ Ha) as (_ & _ & Hgoal).
    destruct (visits_return_inv _ _ _ a sa Ha) as (self & rest & Hv & Es & ->).
    apply (returned_last_good total_cost Astar.calculate_heuristic_value P);
      [apply astar_visits_good, Hv | exact Es | exact Hgoal |].
    apply (visits_ordered total_cost astar_child
             Astar.calculate_heuristic_value P
             astar_child_stack astar_child_cost astar_child_path
             astar_child_key astar_h_flip (astar_start P)
             (astar_start_good P) eq_refl AtWhile), Hv.
Qed.

Lemma goal_closed_last_witness :
  exists u su a sa,
    run_ucs 2 [2; 1] = Some (Ok (u, su))
    /\ run_astar 2 [2; 1] = Some (Ok (a, sa))
    /\ returned_last backwards_cost u su /\ returned_last total_cost a sa.
Proof.
  do 4 eexists. split; [reflexivity|]. split; [reflexivity|].
  exact (goal_closed_last [2; 1] 2 2 _ _ _ _ eq_refl eq_refl).
Defined.

(** X22: when UCS returns, every stack that fewer flips than the returned
    cost lead to is closed: UCS goes through all of the stacks nearer than
    the goal before it returns. *)
Theorem ucs_closes_all_nearer (P : list Z) (fuel : nat) u su (c : nat) t :
  run_ucs fuel P = Some (Ok (u, su)) ->
  reach P c t -> Z.of_nat c < backwards_cost u ->
  t ∈ stack <$> traversed su.
Proof.
  intros Eu Hr Hc.
  destruct (run_ucs_same fuel P _ Eu) as (u' & su' & [= <- <-] & _ & Hu).
  destruct (visits_return_inv _ _ _ u su Hu) as (self & rest & Hv & Es & ->).
  pose proof (ucs_visits_good P _ _ Hv) as (Hcore & Hk & _).
  cbn [closed_state traversed]. rewrite fmap_app, elem_of_app. left.
  destruct (frontier backwards_cost no_heuristic P self c t Hcore Hk Hr)
    as [(m & Hm & Hs & _)|(m & j & Hm & Hj & Hcost & _)].
  - rewrite <- Hs. apply list_elem_of_fmap_2, Hm.
  - pose proof (sort_by_lowest backwards_cost _ _ _ Es m Hm). lia.
Qed.

Lemma ucs_closes_all_nearer_witness :
  exists u su,
    run_ucs 2 [2; 1] = Some (Ok (u, su))
    /\ [2; 1] ∈ stack <$> traversed su.
Proof.
  do 2 eexists. split; [reflexivity|].
  apply (ucs_closes_all_nearer [2; 1] 2 _ _ 0 [2; 1] eq_refl);
    [apply reach_here | simpl; lia].
Defined.

(** X23: in every state of a run of either search on a stack of [N]
    pancakes, the frontier and the closed list hold [N!] nodes at most
    between them. *)
Theorem nodes_bound (P : list Z) pu (su : Ucs.t) pa (sa : Astar.t) :
  visits backwards_cost ucs_child (ucs_start P) pu su ->
  visits total_cost astar_child (astar_start P) pa sa ->
  (length (expanded su) + length (traversed su) <= fact (length P))%nat
  /\ (length (expanded sa) + length (traversed sa) <= fact (length P))%nat.
Proof.
  intros Hu%ucs_visits_good%good_core Ha%astar_visits_good%good_core.
  assert (Hb : forall {N : Type} `{Node N} key h (self : Search N),
            core key h P self ->
            (length (expanded self) + length (traversed self)
             <= fact (length P))%nat).
  { intros N HN key h self Hc.
    rewrite <- length_app, <- permutations_length.
    rewrite <- (length_fmap stack).
    apply submseteq_length, NoDup_submseteq; [apply (core_nodup _ _ _ _ Hc)|].
    intros s (n & -> & Hn)%list_elem_of_fmap.
    apply permutations_Permutation.
    destruct (sound_reach key h P n (core_sound _ _ _ _ Hc n Hn))
      as (c & _ & Hr).
    eapply reach_Permutation, Hr. }
  split; eapply Hb; eassumption.
Qed.

Lemma nodes_bound_witness :
  (length (expanded equal_cost_state) + length (traversed equal_cost_state)
   <= fact (length [1; 3; 2]%Z))%nat
  /\ (length (expanded (astar_start [1; 3; 2]%Z))
      + length (traversed (astar_start [1; 3; 2]%Z))
      <= fact (length [1; 3; 2]%Z))%nat.
Proof.
  apply (nodes_bound [1; 3; 2] (InFor equal_cost_current [3]) _ AtWhile _).
  - exact equal_cost_state_visited.
  - apply visits_start.
Defined.

(** ** No stack is far from another *)

Lemma flip_prefix (u v : list Z) (k : Z) :
  0 <= k <= Z.of_nat (length u) -> flip (u ++ v) k = flip u k ++ v.
Proof.
  intros Hk. rewrite !flip_nonneg by lia.
  rewrite take_app_le by lia. rewrite drop_app_le by lia.
  apply app_assoc.
Qed.

(** Flips of the top of a stack leave what lies below where it is. *)
Lemma reach_prefix (u u' v : list Z) (c : nat) :
  reach u c u' -> reach (u ++ v) c (u' ++ v).
Proof.
  induction 1 as [|c t k _ IH Hk]; [apply reach_here|].
  rewrite <- flip_prefix by lia.
  apply reach_flip; [exact IH|]. rewrite length_app. lia.
Qed.

(** Any pancake goes to the bottom in two flips at most. *)
Lemma reach_bottom (a b : list Z) (x : Z) :
  exists (c : nat) u,
    (c <= 2)%nat /\ (b = [] -> c = 0%nat)
    /\ reach (a ++ x :: b) c (u ++ [x]) /\ u ≡ₚ a ++ b.
Proof.
  destruct b as [|y b].
  - exists 0%nat, a. split; [lia|]. split; [reflexivity|].
    split; [apply reach_here | rewrite app_nil_r; reflexivity].
  - assert (Hwhole : forall s : list Z,
              (2 <= length s)%nat -> reach s 1 (reverse s)).
    { intros s Hs.
      assert (E : flip s (Z.of_nat (length s)) = reverse s).
      { rewrite flip_nonneg by lia. rewrite Nat2Z.id.
        rewrite take_ge by lia. rewrite drop_ge by lia. apply app_nil_r. }
      rewrite <- E. apply reach_one. lia. }
    destruct a as [|z a].
    + exists 1%nat, (reverse (y :: b)). split; [lia|].
      split; [discriminate|]. split.
      * change ([] ++ x :: y :: b) with (x :: y :: b).
        rewrite <- reverse_cons. apply Hwhole. simpl. lia.
      * apply reverse_Permutation.
    + set (top := z :: a).
      exists 2%nat, (reverse (reverse top ++ y :: b)). split; [lia|].
      split; [discriminate|]. split.
      * assert (E1 : flip (top ++ x :: y :: b) (Z.of_nat (length (top ++ [x])))
                     = x :: reverse top ++ y :: b).
        { change (top ++ x :: y :: b) with (top ++ [x] ++ y :: b).
          rewrite app_assoc, flip_app, reverse_app. reflexivity. }
        change 2%nat with (1 + 1)%nat.
        apply (reach_trans _ 1 (x :: reverse top ++ y :: b)).
        -- rewrite <- E1. apply reach_one.
           rewrite !length_app. subst top. cbn [length]. lia.
        -- rewrite <- reverse_cons. apply Hwhole.
           cbn [length]. rewrite length_app. cbn [length]. lia.
      * rewrite !reverse_Permutation. reflexivity.
Qed.

(** From an arrangement of a stack to another: two flips for each pancake
    but one. *)
Lemma reach_within (t : list Z) : forall s,
  s ≡ₚ t ->
  exists c : nat, (c <= 2 * (length s - 1))%nat /\ reach s c t.
Proof.
  induction t as [|x t IH] using rev_ind; intros s Hst.
  - apply Permutation_nil_r in Hst as ->. exists 0%nat.
    split; [simpl; lia | apply reach_here].
  - assert (Hx : x ∈ s).
    { rewrite Hst, elem_of_app, list_elem_of_singleton. auto. }
    apply list_elem_of_split in Hx as (a & b & ->).
    destruct (reach_bottom a b x) as (c1 & u & Hc1 & Hb & Hr1 & Hu).
    assert (Hut : u ≡ₚ t).
    { rewrite Hu. apply (Permutation_cons_inv (a := x)).
      rewrite Permutation_middle, Hst.
      rewrite Permutation_app_comm. reflexivity. }
    destruct (IH u Hut) as (c2 & Hc2 & Hr2).
    exists (c1 + c2)%nat. split.
    + rewrite length_app. simpl length.
      pose proof (Permutation_length Hu) as Hlen. rewrite length_app in Hlen.
      destruct b as [|y b].
      * rewrite (Hb eq_refl). simpl in *. lia.
      * simpl in *. lia.
    + eapply reach_trans; [exact Hr1|]. apply reach_prefix, Hr2.
Qed.

(** X24: the cost either search returns is [2 * (N - 1)] at most, [N] the
    number of pancakes: two flips take a pancake to the bottom, and the
    returned cost is the least there is. *)
Theorem cost_upper_bound (P : list Z) (fuel fuel' : nat) u su a sa :
  run_ucs fuel P = Some (Ok (u, su)) ->
  run_astar fuel' P = Some (Ok (a, sa)) ->
  0 <= backwards_cost u <= 2 * Z.of_nat (length P - 1)
  /\ 0 <= backwards_cost a <= 2 * Z.of_nat (length P - 1).
Proof.
  intros Eu Ea.
  destruct (run_ucs_same fuel P _ Eu) as (u' & su' & [= <- <-] & Au & _).
  destruct (run_astar_same fuel' P _ Ea) as (a' & sa' & [= <- <-] & Aa & _).
  destruct (reach_within (sorted P) P) as (c & Hc & Hr).
  { symmetry. apply sorted_Permutation. }
  pose proof (answer_least _ _ Au c Hr).
  pose proof (answer_least _ _ Aa c Hr).
  destruct (answer_reach _ _ Au) as (cu & Ecu & _).
  destruct (answer_reach _ _ Aa) as (ca & Eca & _).
  lia.
Qed.

Lemma cost_upper_bound_witness :
  exists u su a sa,
    run_ucs 2 [2; 1] = Some (Ok (u, su))
    /\ run_astar 2 [2; 1] = Some (Ok (a, sa))
    /\ 0 <= backwards_cost u <= 2 * Z.of_nat (length [2; 1] - 1)
    /\ 0 <= backwards_cost a <= 2 * Z.of_nat (length [2; 1] - 1).
Proof.
  do 4 eexists. split; [reflexivity|]. split; [reflexivity|].
  exact (cost_upper_bound [2; 1] 2 2 _ _ _ _ eq_refl eq_refl).
Defined.
